(** * latex-merge-changes: the scan-and-rewrite engine of [core.py]

    A shallow embedding of [src/latex_merge_changes/core.py] and the
    properties of its brace matcher [_find_balanced_braces] and of the loop
    [ChangeProcessor.process].

    Conventions of the embedding.
    - A Python [str] is a list of characters; characters are the code points
      below 256 ([ascii]).
    - A Python [int] is a [Z]; indexing and slicing follow Python: a negative
      index counts from the end, an index outside [-len, len) raises
      [IndexError], slice bounds are clamped.
    - A call that may raise returns a [pyresult].
    - The [while True] loop of [process] is run with a bound on the number of
      loop iterations; [OutOfFuel] says that the bound was reached. *)

From Stdlib Require Import String Ascii ZArith Lia Bool Arith List.
From Stdlib Require DecimalString.
Import ListNotations.
Local Open Scope Z_scope.

(** ** Python values *)

Definition str := list ascii.

Definition lit (s : string) : str := list_ascii_of_string s.

Inductive exn := IndexError | KeyError.

Inductive pyresult (A : Type) :=
| Ret (a : A)
| Raise (e : exn).
Arguments Ret {A} a.
Arguments Raise {A} e.

Definition len (text : str) : Z := Z.of_nat (length text).

(** [text[i]] *)
Definition py_index (text : str) (i : Z) : pyresult ascii :=
  let j := if i <? 0 then i + len text else i in
  if (j <? 0) || (len text <=? j) then Raise IndexError
  else match nth_error text (Z.to_nat j) with
       | Some c => Ret c
       | None => Raise IndexError
       end.

(** The clamping of a slice bound. *)
Definition clamp (n i : Z) : Z :=
  if i <? 0 then Z.max 0 (i + n) else Z.min i n.

(** [text[lo:hi]] *)
Definition py_slice (text : str) (lo hi : Z) : str :=
  let l := clamp (len text) lo in
  let h := clamp (len text) hi in
  firstn (Z.to_nat (h - l)) (skipn (Z.to_nat l) text).

(** [text[:hi]] *)
Definition py_slice_to (text : str) (hi : Z) : str := py_slice text 0 hi.

(** [text[lo:]] *)
Definition py_slice_from (text : str) (lo : Z) : str :=
  skipn (Z.to_nat (clamp (len text) lo)) text.

(** [range(start, stop)] *)
Definition range (start stop : Z) : list Z :=
  map (fun k => start + Z.of_nat k) (seq 0 (Z.to_nat (stop - start))).

Definition str_eqb (a b : str) : bool :=
  if list_eq_dec ascii_dec a b then true else false.

(** ** The brace matcher *)

Definition lbrace : ascii := "{"%char.
Definition rbrace : ascii := "}"%char.

(** One turn of the loop body: the counter after the character [c]. *)
Definition bump (c : ascii) (balance : Z) : Z :=
  if Ascii.eqb c lbrace then balance + 1
  else if Ascii.eqb c rbrace then balance - 1
  else balance.

(** The [for i in range(start_pos, len(text))] loop, over the indices that
    are left; falling out of the loop returns [(None, -1)]. *)
Fixpoint brace_loop (text : str) (match_start : Z) (indices : list Z)
         (balance : Z) : pyresult (option str * Z) :=
  match indices with
  | [] => Ret (None, -1)
  | i :: rest =>
      match py_index text i with
      | Raise e => Raise e
      | Ret c =>
          let balance := bump c balance in
          if balance =? 0 then Ret (Some (py_slice text match_start i), i + 1)
          else brace_loop text match_start rest balance
      end
  end.

Definition _find_balanced_braces (text : str) (start_pos : Z)
  : pyresult (option str * Z) :=
  if len text <=? start_pos then Ret (None, -1)
  else match py_index text start_pos with
       | Raise e => Raise e
       | Ret c =>
           if negb (Ascii.eqb c lbrace) then Ret (None, -1)
           else brace_loop text (start_pos + 1)
                           (range start_pos (len text)) 0
       end.

(** ** The command pattern

    [re.compile(r'\\(' + command_names + r')(\s*\[.*?\])*')] with
    [command_names = '|'.join(COMMAND_MAP.keys())].  The keys are plain
    words, so each alternative is matched literally.  Nothing follows the
    starred group, hence the backtracking matcher settles on the first
    alternative (in key order) that is a prefix of the input, and then takes
    as many bracket groups as it can.

    The keys are pasted into the pattern unescaped: the model below is the
    pattern of the source for keys that are plain words ([plain_word]), which
    hold no character with a meaning of its own in a regular expression. *)

(** ASCII letters and digits. *)
Definition is_alnum (c : ascii) : bool :=
  let n := nat_of_ascii c in
  (((48 <=? n) && (n <=? 57)) || ((65 <=? n) && (n <=? 90))
   || ((97 <=? n) && (n <=? 122)))%nat.

(** A key that the pattern matches literally. *)
Definition plain_word (key : str) : bool := forallb is_alnum key.

Definition backslash : ascii := "\"%char.
Definition lbracket : ascii := "["%char.
Definition rbracket : ascii := "]"%char.
Definition newline : ascii := ascii_of_nat 10.

(** [\s] of a [str] pattern: the whitespace code points below 256. *)
Definition is_space (c : ascii) : bool :=
  let n := nat_of_ascii c in
  (((9 <=? n) && (n <=? 13)) || ((28 <=? n) && (n <=? 32))
   || (n =? 133) || (n =? 160))%nat.

(** Where the matcher stands inside [(\s*\[.*?\])*]: in the [\s*] before a
    bracket, or in the [.*?] after one. *)
Inductive opt_state := SkipSpace | InBracket.

(** The number of characters that [(\s*\[.*?\])*] takes from the front of
    [l].  [cur] characters have been read and [committed] of them belong to
    complete groups.  [.] matches every character but a newline, and the lazy
    [.*?] stops at the first closing bracket. *)
Fixpoint opt_groups (l : str) (st : opt_state) (committed cur : nat) : nat :=
  match l with
  | [] => committed
  | c :: r =>
      match st with
      | SkipSpace =>
          if is_space c then opt_groups r SkipSpace committed (S cur)
          else if Ascii.eqb c lbracket then
            opt_groups r InBracket committed (S cur)
          else committed
      | InBracket =>
          if Ascii.eqb c rbracket then opt_groups r SkipSpace (S cur) (S cur)
          else if Ascii.eqb c newline then committed
          else opt_groups r InBracket committed (S cur)
      end
  end.

Fixpoint is_prefix (p l : str) : bool :=
  match p, l with
  | [], _ => true
  | a :: p', b :: l' => Ascii.eqb a b && is_prefix p' l'
  | _ :: _, [] => false
  end.

(** ['|'.join(keys)] of no key at all is the empty pattern, which matches
    the empty word. *)
Definition alternatives (keys : list str) : list str :=
  match keys with
  | [] => [[]]
  | _ => keys
  end.

(** A match object: [match.start()], [match.end()] and [match.group(1)]. *)
Record re_match := { m_start : Z; m_end : Z; m_group1 : str }.

(** The pattern tried at the front of [l]: the matched name and the length
    of the whole match. *)
Definition match_here (keys : list str) (l : str) : option (str * nat) :=
  match l with
  | [] => None
  | c :: r =>
      if Ascii.eqb c backslash then
        match find (fun name => is_prefix name r) (alternatives keys) with
        | Some name =>
            Some (name,
                  (1 + length name
                   + opt_groups (skipn (length name) r) SkipSpace 0 0)%nat)
        | None => None
        end
      else None
  end.

(** [command_regex.search]: the leftmost position with a match. *)
Fixpoint search_from (keys : list str) (l : str) (pos : nat)
  : option re_match :=
  match match_here keys l with
  | Some (name, n) =>
      Some {| m_start := Z.of_nat pos;
              m_end := Z.of_nat (pos + n);
              m_group1 := name |}
  | None =>
      match l with
      | [] => None
      | _ :: r => search_from keys r (S pos)
      end
  end.

Definition search (keys : list str) (text : str) : option re_match :=
  search_from keys text 0.

(** ** Commands, decisions and the registry *)

(** Modelled from the spec: the class [Command] of [commands.py], which is
    not among the sources.  A command kind has a name, a fixed number of
    brace arguments and two transforms of the argument list. *)
Record Command := {
  name : str;
  num_args : nat;
  accept : list str -> str;
  reject : list str -> str
}.

(** [COMMAND_MAP[key]] on a dict kept in insertion order. *)
Fixpoint lookup (m : list (str * Command)) (key : str) : pyresult Command :=
  match m with
  | [] => Raise KeyError
  | (k, c) :: m' => if str_eqb k key then Ret c else lookup m' key
  end.

(** The keys of the registry are plain words. *)
Definition plain_keys (m : list (str * Command)) : bool :=
  forallb plain_word (map fst m).

(** What one turn of the loop lets the outside see: a call of the decision
    source with its answer, or the printed warning. *)
Inductive event :=
| Decision (command : Command) (args : list str) (action : str)
| Warning (command_name : str) (position : Z).

(** The digits of [print]'s [{match.start()}]. *)
Definition decimal (z : Z) : str :=
  lit (DecimalString.NilZero.string_of_int (Z.to_int z)).

(** The line that [print] writes for a [Warning]. *)
Definition warning_line (command_name : str) (position : Z) : str :=
  lit "Warning: Malformed command '\" ++ command_name
      ++ lit "' at position " ++ decimal position ++ lit ". Skipping.".

Definition is_decision (e : event) : bool :=
  match e with Decision _ _ _ => true | Warning _ _ => false end.

(** The number of calls of the decision source in a trace. *)
Definition decisions (trace : list event) : nat :=
  length (filter is_decision trace).

(** ** The loop of [ChangeProcessor.process] *)

(** The [for _ in range(command.num_args)] loop; [n] turns are left.  A
    failed extraction sets [current_pos] to [-1] and leaves the loop. *)
Fixpoint collect_args (text : str) (n : nat) (args : list str)
         (current_pos : Z) : pyresult (list str * Z) :=
  match n with
  | O => Ret (args, current_pos)
  | S n' =>
      match _find_balanced_braces text current_pos with
      | Raise e => Raise e
      | Ret (None, _) => Ret (args, -1)
      | Ret (Some content, next_pos) =>
          collect_args text n' (args ++ [content]) next_pos
      end
  end.

Inductive step_result (H : Type) :=
| Break
| Continue (processed_text : str) (h : H) (ev : event)
| Fail (e : exn).
Arguments Break {H}.
Arguments Continue {H} processed_text h ev.
Arguments Fail {H} e.

Inductive outcome (H : Type) :=
| Finished (text : str) (h : H) (trace : list event)
| Raised (e : exn) (trace : list event)
| OutOfFuel (trace : list event).
Arguments Finished {H} text h trace.
Arguments Raised {H} e trace.
Arguments OutOfFuel {H} trace.

Section Processor.

(** The registry [COMMAND_MAP] of [commands.py], in key order. *)
Variable COMMAND_MAP : list (str * Command).

(** Modelled from the spec: the decision source of [handlers.py], which is
    not among the sources.  [H] is the state of the handler; one call of
    [get_decision_for_change] answers with an action and a new state.  The
    call and the transforms are taken to return; an abort raised by the
    decision source is outside this model. *)
Variable H : Type.
Variable get_decision_for_change : H -> Command -> list str -> str * H.

Definition command_regex_search (text : str) : option re_match :=
  search (map fst COMMAND_MAP) text.

(** The replacement chosen for an action; any other answer leaves the
    replacement empty, as it was initialised. *)
Definition replacement_for (processed_text : str) (m : re_match)
           (command : Command) (args : list str) (command_end_pos : Z)
           (action : str) : str :=
  if str_eqb action (lit "a") then accept command args
  else if str_eqb action (lit "r") then reject command args
  else if str_eqb action (lit "k") then
    py_slice processed_text (m_start m) command_end_pos
  else [].

(** One turn of [while True]. *)
Definition process_step (processed_text : str) (h : H) : step_result H :=
  match command_regex_search processed_text with
  | None => Break
  | Some m =>
      let command_name := m_group1 m in
      match lookup COMMAND_MAP command_name with
      | Raise e => Fail e
      | Ret command =>
          match collect_args processed_text (num_args command) [] (m_end m) with
          | Raise e => Fail e
          | Ret (args, current_pos) =>
              if current_pos =? -1 then
                Continue (py_slice_to processed_text (m_start m)
                            ++ py_slice_from processed_text (m_end m))
                         h (Warning command_name (m_start m))
              else
                let command_end_pos := current_pos in
                let '(action, h') := get_decision_for_change h command args in
                let replacement :=
                  replacement_for processed_text m command args
                                  command_end_pos action in
                Continue (py_slice_to processed_text (m_start m)
                            ++ replacement
                            ++ py_slice_from processed_text command_end_pos)
                         h' (Decision command args action)
          end
      end
  end.

(** [process], with at most [fuel] turns of the loop. *)
Fixpoint process_loop (fuel : nat) (processed_text : str) (h : H) : outcome H :=
  match fuel with
  | O => OutOfFuel []
  | S fuel' =>
      match process_step processed_text h with
      | Break => Finished processed_text h []
      | Fail e => Raised e []
      | Continue processed_text' h' ev =>
          match process_loop fuel' processed_text' h' with
          | Finished out hf trace => Finished out hf (ev :: trace)
          | Raised e trace => Raised e (ev :: trace)
          | OutOfFuel trace => OutOfFuel (ev :: trace)
          end
      end
  end.

Definition process (fuel : nat) (text : str) (h : H) : outcome H :=
  process_loop fuel text h.

(** [process] returns [out]: some number of turns is enough. *)
Definition process_returns (text : str) (h : H) (out : str) (hf : H)
           (trace : list event) : Prop :=
  exists fuel, process fuel text h = Finished out hf trace.

End Processor.

Arguments process_step COMMAND_MAP {H}.
Arguments process_loop COMMAND_MAP {H}.
Arguments process COMMAND_MAP {H}.
Arguments process_returns COMMAND_MAP {H}.

(** ** Specification vocabulary *)

(** The nesting depth that a text adds: opening minus closing braces. *)
Definition nesting (l : str) : Z :=
  Z.of_nat (count_occ ascii_dec l lbrace)
  - Z.of_nat (count_occ ascii_dec l rbrace).

(** Texts whose braces are properly nested, to any depth. *)
Inductive balanced : str -> Prop :=
| balanced_nil : balanced []
| balanced_char c l :
    c <> lbrace -> c <> rbrace -> balanced l -> balanced (c :: l)
| balanced_group l1 l2 :
    balanced l1 -> balanced l2 -> balanced (lbrace :: l1 ++ rbrace :: l2).

(** The offset in [l] at which a counter that starts at [balance] first
    comes to zero. *)
Fixpoint close_offset (l : str) (balance : Z) : option nat :=
  match l with
  | [] => None
  | c :: r =>
      if bump c balance =? 0 then Some O
      else option_map S (close_offset r (bump c balance))
  end.

(** The source text of one brace argument, and of a row of them. *)
Definition braced (a : str) : str := lbrace :: a ++ [rbrace].

Definition groups (args : list str) : str := concat (map braced args).

(** [rest] opens with the [n] brace groups of [args], each properly
    nested, and goes on with [after]. *)
Definition well_formed (n : nat) (rest : str) (args : list str) (after : str)
  : Prop :=
  rest = groups args ++ after /\ length args = n /\ Forall balanced args.

(** One of the [n] extractions fails on [rest]. *)
Definition malformed (n : nat) (rest : str) : Prop :=
  forall args after, ~ well_formed n rest args after.

(** The match that [search] finds in [text]: the matched text [matched],
    which is the command name with its bracket groups, between [before] and
    [rest]. *)
Definition first_match (COMMAND_MAP : list (str * Command))
           (text before matched rest command_name : str) : Prop :=
  text = before ++ matched ++ rest
  /\ search (map fst COMMAND_MAP) text
     = Some {| m_start := len before;
               m_end := len before + len matched;
               m_group1 := command_name |}.

(** The positions of [l], counted from [pos], at which the pattern matches:
    the occurrences of the recognized command names. *)
Fixpoint occurrences_from (keys : list str) (l : str) (pos : nat) : list nat :=
  match l with
  | [] => []
  | _ :: r =>
      match match_here keys l with
      | Some _ => pos :: occurrences_from keys r (S pos)
      | None => occurrences_from keys r (S pos)
      end
  end.

Definition occurrences (COMMAND_MAP : list (str * Command)) (text : str)
  : list nat :=
  occurrences_from (map fst COMMAND_MAP) text 0.

(** The number of escape markers in a text. *)
Definition count_backslash (text : str) : nat :=
  count_occ ascii_dec text backslash.

(** [process] returns after at most [K] rewriting turns. *)
Definition terminates_within {H : Type} (COMMAND_MAP : list (str * Command))
           (get_decision_for_change : H -> Command -> list str -> str * H)
           (text : str) (h : H) (K : nat) : Prop :=
  exists fuel out hf trace,
    process COMMAND_MAP get_decision_for_change fuel text h
    = Finished out hf trace
    /\ (length trace <= K)%nat.

(** ** Sample registry and decision sources *)

(** A one-argument kind [added]: accepting keeps the argument, rejecting
    leaves nothing. *)
Definition added : Command :=
  {| name := lit "added"; num_args := 1;
     accept := fun args => concat args; reject := fun _ => [] |}.

(** The same kind with transforms that write nothing at all. *)
Definition added_blank : Command :=
  {| name := lit "added"; num_args := 1;
     accept := fun _ => []; reject := fun _ => [] |}.

(** A decision source that gives the same answer at every call. *)
Definition always (a : string) : unit -> Command -> list str -> str * unit :=
  fun _ _ _ => (lit a, tt).

(** A decision source that answers keep at its first call and accept from
    then on; its state counts the calls. *)
Definition keep_then_accept : nat -> Command -> list str -> str * nat :=
  fun calls _ _ =>
    match calls with
    | O => (lit "k", 1%nat)
    | S _ => (lit "a", S calls)
    end.

(** The conditions under which the matcher is to answer Failure: the
    position is outside the text, the character there is no opening brace,
    or the nesting from the position on never comes back to zero. *)
Definition no_group_at (text : str) (pos : Z) : Prop :=
  (pos < 0 \/ len text <= pos)
  \/ py_index text pos <> Ret lbrace
  \/ (forall j, pos <= j < len text ->
                nesting (py_slice text pos (j + 1)) <> 0).

(** The contract of the brace matcher at one position: Failure, which is
    [(None, -1)], under [no_group_at]; otherwise the text from [pos] on reads
    [{body}post] with [body] properly nested, and the answer is [body] with
    the index one past the closing brace. *)
Definition brace_matcher_contract (text : str) (pos : Z) : Prop :=
  (no_group_at text pos -> _find_balanced_braces text pos = Ret (None, -1))
  /\ (~ no_group_at text pos ->
      exists body post,
        py_slice_from text pos = lbrace :: body ++ rbrace :: post
        /\ balanced body
        /\ _find_balanced_braces text pos
           = Ret (Some body, pos + len body + 2)).

(** ** Vocabulary for comparing runs *)

(** A result of the matcher with its content rewritten by [f]. *)
Definition map_found (f : ascii -> ascii) (r : pyresult (option str * Z))
  : pyresult (option str * Z) :=
  match r with
  | Ret (Some content, end_pos) => Ret (Some (map f content), end_pos)
  | _ => r
  end.

(** An event seen [k] characters further to the right. *)
Definition shift_event (k : Z) (ev : event) : event :=
  match ev with
  | Decision command args action => Decision command args action
  | Warning command_name position => Warning command_name (position + k)
  end.

(** An outcome of [process] on a text that had [before] in front of it. *)
Definition prepend_outcome {H : Type} (before : str) (o : outcome H)
  : outcome H :=
  match o with
  | Finished out hf trace =>
      Finished (before ++ out) hf (map (shift_event (len before)) trace)
  | Raised e trace => Raised e (map (shift_event (len before)) trace)
  | OutOfFuel trace => OutOfFuel (map (shift_event (len before)) trace)
  end.

(** The state of the decision source after the calls that a trace records. *)
Fixpoint handler_after {H : Type}
         (get_decision_for_change : H -> Command -> list str -> str * H)
         (h : H) (trace : list event) : H :=
  match trace with
  | [] => h
  | Decision command args _ :: trace' =>
      handler_after get_decision_for_change
                    (snd (get_decision_for_change h command args)) trace'
  | Warning _ _ :: trace' => handler_after get_decision_for_change h trace'
  end.

(** Every recorded answer is the answer the decision source gives, in the
    state it has reached, to the recorded command and arguments. *)
Fixpoint answers_recorded {H : Type}
         (get_decision_for_change : H -> Command -> list str -> str * H)
         (h : H) (trace : list event) : Prop :=
  match trace with
  | [] => True
  | Decision command args action :: trace' =>
      fst (get_decision_for_change h command args) = action
      /\ answers_recorded get_decision_for_change
                          (snd (get_decision_for_change h command args)) trace'
  | Warning _ _ :: trace' =>
      answers_recorded get_decision_for_change h trace'
  end.

(** ** Python indexing and slicing at positions inside the text *)

Lemma len_nonneg text : 0 <= len text.
Proof. unfold len. lia. Qed.

Lemma len_app a b : len (a ++ b) = len a + len b.
Proof. unfold len. rewrite length_app. lia. Qed.

Lemma len_cons c a : len (c :: a) = 1 + len a.
Proof. unfold len. simpl length. lia. Qed.

Lemma py_index_app pre c post :
  py_index (pre ++ c :: post) (len pre) = Ret c.
Proof.
  unfold py_index.
  pose proof (len_nonneg pre) as Hp. pose proof (len_nonneg post) as Hq.
  destruct (Z.ltb_spec (len pre) 0) as [?|_]; [lia|].
  rewrite len_app, len_cons.
  destruct (Z.ltb_spec (len pre) 0) as [?|_]; [lia|].
  destruct (Z.leb_spec (len pre + (1 + len post)) (len pre)) as [?|_]; [lia|].
  simpl. unfold len. rewrite Nat2Z.id.
  rewrite nth_error_app2 by lia. now rewrite Nat.sub_diag.
Qed.

Lemma clamp_inside n i : 0 <= i <= n -> clamp n i = i.
Proof.
  intros Hi. unfold clamp.
  destruct (Z.ltb_spec i 0); lia.
Qed.

Lemma py_slice_inside text lo hi :
  0 <= lo <= hi -> hi <= len text ->
  py_slice text lo hi = firstn (Z.to_nat (hi - lo)) (skipn (Z.to_nat lo) text).
Proof.
  intros H1 H2. unfold py_slice.
  now rewrite !clamp_inside by lia.
Qed.

Lemma py_slice_app pre mid post :
  py_slice (pre ++ mid ++ post) (len pre) (len pre + len mid) = mid.
Proof.
  pose proof (len_nonneg pre). pose proof (len_nonneg mid).
  pose proof (len_nonneg post).
  rewrite py_slice_inside by (rewrite ?len_app; lia).
  unfold len. rewrite Nat2Z.id.
  rewrite skipn_app, skipn_all, Nat.sub_diag. simpl.
  replace (Z.to_nat _) with (length mid) by lia.
  rewrite firstn_app, firstn_all, Nat.sub_diag. simpl. apply app_nil_r.
Qed.

Lemma py_slice_to_app pre post :
  py_slice_to (pre ++ post) (len pre) = pre.
Proof.
  unfold py_slice_to.
  pose proof (py_slice_app [] pre post) as E. simpl in E.
  unfold len at 1 in E. simpl in E. exact E.
Qed.

Lemma py_slice_from_app pre post :
  py_slice_from (pre ++ post) (len pre) = post.
Proof.
  unfold py_slice_from.
  pose proof (len_nonneg pre). pose proof (len_nonneg post).
  rewrite clamp_inside by (rewrite len_app; lia).
  unfold len. rewrite Nat2Z.id.
  rewrite skipn_app, skipn_all, Nat.sub_diag. reflexivity.
Qed.

Lemma split_at text (p : Z) :
  0 <= p <= len text ->
  text = firstn (Z.to_nat p) text ++ skipn (Z.to_nat p) text
  /\ len (firstn (Z.to_nat p) text) = p.
Proof.
  intros Hp. split.
  - symmetry. apply firstn_skipn.
  - unfold len in *. rewrite length_firstn. lia.
Qed.

Lemma range_nil start stop : stop <= start -> range start stop = [].
Proof.
  intros Hs. unfold range.
  replace (Z.to_nat (stop - start)) with O by lia. reflexivity.
Qed.

Lemma range_cons start stop :
  start < stop -> range start stop = start :: range (start + 1) stop.
Proof.
  intros Hs. unfold range.
  replace (Z.to_nat (stop - start))
    with (S (Z.to_nat (stop - (start + 1)))) by lia.
  simpl. f_equal; [lia|].
  rewrite <- seq_shift, map_map.
  apply map_ext. intros k. lia.
Qed.

Lemma range_In i start stop : In i (range start stop) -> start <= i < stop.
Proof.
  unfold range. rewrite in_map_iff.
  intros (k & <- & Hk). apply in_seq in Hk. lia.
Qed.

(** ** The brace matcher: the counter *)

Lemma bump_lbrace b : bump lbrace b = b + 1.
Proof. reflexivity. Qed.

Lemma bump_rbrace b : bump rbrace b = b - 1.
Proof. reflexivity. Qed.

Lemma bump_other c b : c <> lbrace -> c <> rbrace -> bump c b = b.
Proof.
  intros H1 H2. unfold bump.
  destruct (Ascii.eqb_spec c lbrace); [contradiction|].
  destruct (Ascii.eqb_spec c rbrace); [contradiction|]. reflexivity.
Qed.

Lemma bump_cases c b :
  (c = lbrace /\ bump c b = b + 1)
  \/ (c = rbrace /\ bump c b = b - 1)
  \/ (c <> lbrace /\ c <> rbrace /\ bump c b = b).
Proof.
  unfold bump.
  destruct (Ascii.eqb_spec c lbrace); [now left|].
  destruct (Ascii.eqb_spec c rbrace); [right; now left|].
  right; right. auto.
Qed.

Lemma nesting_nil : nesting [] = 0.
Proof. reflexivity. Qed.

Lemma nesting_cons c l : nesting (c :: l) = bump c 0 + nesting l.
Proof.
  unfold nesting. simpl count_occ.
  destruct (bump_cases c 0) as [[-> E]|[[-> E]|(H1 & H2 & E)]]; rewrite E.
  - destruct (ascii_dec lbrace lbrace); [|contradiction].
    destruct (ascii_dec lbrace rbrace); [discriminate|]. lia.
  - destruct (ascii_dec rbrace lbrace); [discriminate|].
    destruct (ascii_dec rbrace rbrace); [|contradiction]. lia.
  - destruct (ascii_dec c lbrace); [contradiction|].
    destruct (ascii_dec c rbrace); [contradiction|]. lia.
Qed.

Lemma bump_shift c b : bump c b = b + bump c 0.
Proof.
  destruct (bump_cases c b) as [[-> E]|[[-> E]|(H1 & H2 & E)]]; rewrite E.
  - rewrite bump_lbrace. lia.
  - rewrite bump_rbrace. lia.
  - rewrite bump_other by assumption. lia.
Qed.

Lemma nesting_app a b : nesting (a ++ b) = nesting a + nesting b.
Proof.
  induction a as [|c a IH]; simpl app.
  - rewrite nesting_nil. lia.
  - rewrite !nesting_cons, IH. lia.
Qed.

Lemma balanced_nesting w : balanced w -> nesting w = 0.
Proof.
  induction 1 as [|c l H1 H2 _ IH|l1 l2 _ IH1 _ IH2].
  - reflexivity.
  - rewrite nesting_cons, bump_other by assumption. lia.
  - rewrite nesting_cons, nesting_app, nesting_cons, IH1, IH2.
    rewrite bump_lbrace, bump_rbrace. lia.
Qed.

(** The first return to zero, said with [nesting]. *)
Lemma close_offset_nesting l : forall b,
  match close_offset l b with
  | Some k =>
      (k < length l)%nat
      /\ b + nesting (firstn (S k) l) = 0
      /\ forall k', (k' < k)%nat -> b + nesting (firstn (S k') l) <> 0
  | None =>
      forall k, (k < length l)%nat -> b + nesting (firstn (S k) l) <> 0
  end.
Proof.
  induction l as [|c r IH]; intros b; simpl close_offset.
  - intros k Hk. simpl in Hk. lia.
  - destruct (Z.eqb_spec (bump c b) 0) as [E|E].
    + split; [simpl; lia|]. split; [|intros k' Hk'; lia].
      simpl firstn. rewrite nesting_cons, nesting_nil.
      rewrite bump_shift in E. lia.
    + specialize (IH (bump c b)).
      assert (Hstep : forall k, b + nesting (firstn (S (S k)) (c :: r))
                                = bump c b + nesting (firstn (S k) r)).
      { intros k. change (firstn (S (S k)) (c :: r)) with (c :: firstn (S k) r).
        rewrite nesting_cons, (bump_shift c b). lia. }
      assert (Hzero : b + nesting (firstn 1 (c :: r)) <> 0).
      { simpl firstn. rewrite nesting_cons, nesting_nil.
        rewrite bump_shift in E. lia. }
      destruct (close_offset r (bump c b)) as [k|]; simpl option_map.
      * destruct IH as (Hk & Hz & Hmin). split; [simpl; lia|]. split.
        -- now rewrite Hstep.
        -- intros [|k'] Hk'; [exact Hzero|]. rewrite Hstep. apply Hmin. lia.
      * intros [|k] Hk; [exact Hzero|]. rewrite Hstep. apply IH.
        simpl in Hk. lia.
Qed.

(** A properly nested text never brings a positive counter to zero. *)
Lemma close_offset_balanced w :
  balanced w -> forall b rest, 0 < b ->
  close_offset (w ++ rest) b
  = option_map (fun k => (length w + k)%nat) (close_offset rest b).
Proof.
  induction 1 as [|c l H1 H2 _ IH|l1 l2 _ IH1 _ IH2]; intros b rest Hb.
  - simpl. now destruct (close_offset rest b).
  - simpl app. simpl close_offset. rewrite bump_other by assumption.
    destruct (Z.eqb_spec b 0); [lia|].
    rewrite IH by assumption. now destruct (close_offset rest b).
  - simpl app. simpl close_offset. rewrite bump_lbrace.
    destruct (Z.eqb_spec (b + 1) 0); [lia|].
    rewrite <- app_assoc. rewrite IH1 by lia.
    simpl app. simpl close_offset. rewrite bump_rbrace.
    replace (b + 1 - 1) with b by lia.
    destruct (Z.eqb_spec b 0); [lia|].
    rewrite IH2 by assumption.
    destruct (close_offset rest b); simpl; [|reflexivity].
    f_equal. rewrite length_app. simpl. lia.
Qed.

(** What lies before the first return to zero: one properly nested text and
    a closing brace for each unit of the counter. *)
Lemma close_offset_groups l : forall b k,
  0 < b -> close_offset l b = Some k ->
  exists ws,
    length ws = Z.to_nat b /\ Forall balanced ws
    /\ firstn (S k) l = concat (map (fun w => w ++ [rbrace]) ws).
Proof.
  induction l as [|c r IH]; intros b k Hb; simpl close_offset; [discriminate|].
  destruct (Z.eqb_spec (bump c b) 0) as [E|E].
  - intros [= <-].
    destruct (bump_cases c b) as [[-> E']|[[-> E']|(H1 & H2 & E')]];
      rewrite E' in E; try lia.
    exists [[]]. repeat split.
    + simpl. lia.
    + repeat constructor.
  - destruct (close_offset r (bump c b)) as [k'|] eqn:Hc; [|discriminate].
    intros [= <-].
    destruct (bump_cases c b) as [[-> E']|[[-> E']|(H1 & H2 & E')]];
      rewrite E' in *.
    + destruct (IH (b + 1) k' ltac:(lia) Hc) as (ws & Hlen & Hbal & Hcat).
      destruct ws as [|w1 [|w2 ws]]; simpl in Hlen; try lia.
      exists ((lbrace :: w1 ++ rbrace :: w2) :: ws). split; [simpl; lia|].
      inversion Hbal as [|? ? B1 Hbal']; subst.
      inversion Hbal' as [|? ? B2 Hbal'']; subst.
      split; [constructor; [now constructor|assumption]|].
      change (firstn (S (S k')) (lbrace :: r)) with (lbrace :: firstn (S k') r).
      rewrite Hcat. simpl. rewrite <- !app_assoc. reflexivity.
    + destruct (IH (b - 1) k' ltac:(lia) Hc) as (ws & Hlen & Hbal & Hcat).
      exists ([] :: ws). split; [simpl; lia|].
      split; [constructor; [constructor|assumption]|].
      change (firstn (S (S k')) (rbrace :: r)) with (rbrace :: firstn (S k') r).
      rewrite Hcat. reflexivity.
    + destruct (IH _ _ Hb Hc) as (ws & Hlen & Hbal & Hcat).
      destruct ws as [|w1 ws]; simpl in Hlen; try lia.
      exists ((c :: w1) :: ws). split; [simpl; lia|].
      inversion Hbal as [|? ? B1 Hbal']; subst.
      split; [constructor; [now constructor|assumption]|].
      change (firstn (S (S k')) (c :: r)) with (c :: firstn (S k') r).
      rewrite Hcat. reflexivity.
Qed.

(** ** The brace matcher: the loop *)

(** A successful return of the loop, at any start position: the loop stopped
    at one of its indices, on a closing brace. *)
Lemma brace_loop_success text match_start : forall indices b content end_pos,
  0 < b ->
  brace_loop text match_start indices b = Ret (Some content, end_pos) ->
  exists i, In i indices /\ end_pos = i + 1
            /\ content = py_slice text match_start i
            /\ py_index text i = Ret rbrace.
Proof.
  induction indices as [|i rest IH]; intros b content end_pos Hb; simpl.
  - discriminate.
  - destruct (py_index text i) as [c|e] eqn:Hi; [|discriminate].
    destruct (Z.eqb_spec (bump c b) 0) as [E|E].
    + intros [= <- <-]. exists i. repeat split; auto.
      destruct (bump_cases c b) as [[-> E']|[[-> E']|(H1 & H2 & E')]];
        rewrite E' in E; try lia. exact Hi.
    + intros Hloop.
      assert (Hb' : 0 < bump c b).
      { destruct (bump_cases c b) as [[-> E']|[[-> E']|(H1 & H2 & E')]];
          rewrite E' in *; lia. }
      destruct (IH _ _ _ Hb' Hloop) as (j & Hj & He & Hc & Hr).
      exists j. auto.
Qed.

(** From a position inside the text the loop walks the rest of the text. *)
Lemma brace_loop_offset match_start : forall l pre b,
  brace_loop (pre ++ l) match_start (range (len pre) (len (pre ++ l))) b
  = match close_offset l b with
    | Some k =>
        Ret (Some (py_slice (pre ++ l) match_start (len pre + Z.of_nat k)),
             len pre + Z.of_nat k + 1)
    | None => Ret (None, -1)
    end.
Proof.
  induction l as [|c r IH]; intros pre b.
  - rewrite range_nil by (rewrite app_nil_r; lia). reflexivity.
  - pose proof (len_nonneg r).
    rewrite range_cons by (rewrite len_app, len_cons; lia).
    simpl brace_loop. rewrite py_index_app. simpl close_offset.
    destruct (Z.eqb_spec (bump c b) 0) as [E|E].
    + change (Z.of_nat 0) with 0. now rewrite Z.add_0_r.
    + specialize (IH (pre ++ [c]) (bump c b)).
      rewrite <- app_assoc in IH. simpl app in IH.
      rewrite len_app, len_cons in IH. unfold len at 2 in IH. simpl in IH.
      rewrite IH.
      destruct (close_offset r (bump c b)) as [k|]; simpl option_map;
        [|reflexivity].
      replace (len pre + 1 + Z.of_nat k) with (len pre + Z.of_nat (S k)) by lia.
      reflexivity.
Qed.

(** The matcher at a position inside the text, by the text from there on. *)
Lemma find_balanced_braces_at pre l :
  _find_balanced_braces (pre ++ l) (len pre)
  = match l with
    | [] => Ret (None, -1)
    | c :: r =>
        if Ascii.eqb c lbrace then
          match close_offset r 1 with
          | Some k => Ret (Some (firstn k r), len pre + Z.of_nat k + 2)
          | None => Ret (None, -1)
          end
        else Ret (None, -1)
    end.
Proof.
  unfold _find_balanced_braces.
  pose proof (len_nonneg pre) as Hp.
  destruct l as [|c r].
  - rewrite app_nil_r.
    destruct (Z.leb_spec (len pre) (len pre)); [reflexivity|lia].
  - pose proof (len_nonneg r).
    destruct (Z.leb_spec (len (pre ++ c :: r)) (len pre)) as [Hle|_];
      [rewrite len_app, len_cons in Hle; lia|].
    rewrite py_index_app.
    destruct (Ascii.eqb_spec c lbrace) as [->|Hc]; simpl negb; [|reflexivity].
    rewrite brace_loop_offset. simpl close_offset. rewrite bump_lbrace.
    simpl Z.eqb. change (0 + 1) with 1.
    pose proof (close_offset_nesting r 1) as Hk.
    destruct (close_offset r 1) as [k|]; simpl option_map; [|reflexivity].
    destruct Hk as (Hk & _).
    replace (len pre + Z.of_nat (S k) + 1)
      with (len pre + Z.of_nat k + 2) by lia.
    do 3 f_equal.
    pose proof (py_slice_app (pre ++ [lbrace]) (firstn k r) (skipn k r)) as E.
    rewrite firstn_skipn, <- app_assoc in E. simpl app in E.
    assert (L1 : len (pre ++ [lbrace]) = len pre + 1)
      by (rewrite len_app; reflexivity).
    assert (L2 : len (firstn k r) = Z.of_nat k)
      by (unfold len; rewrite length_firstn; lia).
    rewrite L1, L2 in E.
    replace (len pre + Z.of_nat (S k)) with (len pre + 1 + Z.of_nat k) by lia.
    exact E.
Qed.

Lemma find_balanced_braces_past text pos :
  len text <= pos -> _find_balanced_braces text pos = Ret (None, -1).
Proof.
  intros Hp. unfold _find_balanced_braces.
  destruct (Z.leb_spec (len text) pos); [reflexivity|lia].
Qed.

(** A group [{body}] with a properly nested body is found. *)
Lemma find_balanced_braces_group pre body post :
  balanced body ->
  _find_balanced_braces (pre ++ lbrace :: body ++ rbrace :: post) (len pre)
  = Ret (Some body, len pre + len body + 2).
Proof.
  intros Hb. rewrite find_balanced_braces_at. simpl Ascii.eqb.
  rewrite close_offset_balanced by (assumption || lia).
  change (close_offset (rbrace :: post) 1) with (Some O). simpl option_map.
  rewrite Nat.add_0_r, firstn_app, firstn_all, Nat.sub_diag.
  simpl firstn. rewrite app_nil_r. reflexivity.
Qed.

(** What a success says about the text from the position on. *)
Lemma find_balanced_braces_at_inv pre l content end_pos :
  _find_balanced_braces (pre ++ l) (len pre) = Ret (Some content, end_pos) ->
  exists post,
    l = lbrace :: content ++ rbrace :: post
    /\ balanced content
    /\ end_pos = len pre + len content + 2.
Proof.
  rewrite find_balanced_braces_at.
  destruct l as [|c r]; [discriminate|].
  destruct (Ascii.eqb_spec c lbrace) as [->|Hc]; [|discriminate].
  destruct (close_offset r 1) as [k|] eqn:Hk; [|discriminate].
  intros [= <- <-].
  pose proof (close_offset_nesting r 1) as Hn. rewrite Hk in Hn.
  destruct Hn as (Hlt & _).
  destruct (close_offset_groups r 1 k ltac:(lia) Hk)
    as (ws & Hlen & Hbal & Hcat).
  destruct ws as [|w [|? ?]]; simpl in Hlen; try lia.
  cbn [concat map] in Hcat. rewrite app_nil_r in Hcat.
  inversion Hbal as [|? ? Bw _]; subst.
  assert (Hw : length w = k).
  { apply (f_equal (@length ascii)) in Hcat.
    rewrite length_firstn, length_app in Hcat. cbn [length] in Hcat. lia. }
  assert (Hr : r = w ++ rbrace :: skipn (S k) r).
  { rewrite <- (firstn_skipn (S k) r) at 1. rewrite Hcat, <- app_assoc.
    reflexivity. }
  exists (skipn (S k) r).
  assert (Hf : firstn k r = w).
  { rewrite Hr, firstn_app, <- Hw, firstn_all, Nat.sub_diag. simpl.
    apply app_nil_r. }
  rewrite Hf. split; [now rewrite <- Hr|]. split; [assumption|].
  unfold len. lia.
Qed.

(** The matcher never raises from a position that is not negative. *)
Lemma find_balanced_braces_at_total pre l :
  _find_balanced_braces (pre ++ l) (len pre) = Ret (None, -1)
  \/ exists content end_pos,
       _find_balanced_braces (pre ++ l) (len pre) = Ret (Some content, end_pos).
Proof.
  rewrite find_balanced_braces_at.
  destruct l as [|c r]; [now left|].
  destruct (Ascii.eqb c lbrace); [|now left].
  destruct (close_offset r 1); [right; eauto|now left].
Qed.

(** A text seen from one of its positions. *)
Lemma text_at text pos :
  0 <= pos ->
  exists pre l,
    text = pre ++ l /\ len pre = Z.min pos (len text)
    /\ py_slice_from text pos = l.
Proof.
  intros Hp. pose proof (len_nonneg text) as Hl.
  destruct (split_at text (Z.min pos (len text)) ltac:(lia)) as (E & L).
  exists (firstn (Z.to_nat (Z.min pos (len text))) text),
         (skipn (Z.to_nat (Z.min pos (len text))) text).
  split; [exact E|]. split; [exact L|].
  unfold py_slice_from, clamp.
  destruct (Z.ltb_spec pos 0); [lia|reflexivity].
Qed.

(** ** The brace matcher: results *)

(** C3, for positions that are not negative.  The matcher answers Failure
    when the position is past the text, or the character there is not an
    opening brace, or the nesting never returns to zero; otherwise it answers
    with the text strictly between the opening brace and its matching
    closing brace, and the index one past that brace. *)
Theorem find_balanced_braces_correct text pos :
  0 <= pos -> brace_matcher_contract text pos.
Proof.
  intros Hpos. pose proof (len_nonneg text) as Hlen.
  destruct (Z.le_gt_cases (len text) pos) as [Hout|Hin].
  - split.
    + intros _. now apply find_balanced_braces_past.
    + intros Hno. exfalso. apply Hno. left. now right.
  - destruct (text_at text pos Hpos) as (pre & l & -> & Hpre & Hfrom).
    rewrite Z.min_l in Hpre by lia.
    unfold brace_matcher_contract, no_group_at. rewrite Hfrom.
    subst pos. clear Hfrom.
    destruct l as [|c r];
      [rewrite app_nil_r in Hin; lia|].
    assert (Hslice : forall k : nat, (k < length r)%nat ->
              py_slice (pre ++ c :: r) (len pre) (len pre + Z.of_nat (S k) + 1)
              = c :: firstn (S k) r).
    { intros k Hk.
      pose proof (py_slice_app pre (c :: firstn (S k) r) (skipn (S k) r)) as E.
      change ((c :: firstn (S k) r) ++ skipn (S k) r)
        with (c :: (firstn (S k) r ++ skipn (S k) r)) in E.
      rewrite firstn_skipn in E.
      assert (L : len (c :: firstn (S k) r) = Z.of_nat (S k) + 1)
        by (rewrite len_cons; unfold len; rewrite length_firstn; lia).
      rewrite L, Z.add_assoc in E. exact E. }
    pose proof (find_balanced_braces_at pre (c :: r)) as Hat.
    pose proof (close_offset_nesting r 1) as Hnest.
    cbv beta iota in Hat.
    split.
    + intros [Hrange|[Hchar|Hnever]].
      * lia.
      * rewrite py_index_app in Hchar. rewrite Hat.
        destruct (Ascii.eqb_spec c lbrace) as [->|_]; [now destruct Hchar|].
        reflexivity.
      * rewrite Hat.
        destruct (Ascii.eqb_spec c lbrace) as [->|_]; [|reflexivity].
        destruct (close_offset r 1) as [k|]; [|reflexivity].
        destruct Hnest as (Hk & Hz & _). exfalso.
        apply (Hnever (len pre + Z.of_nat (S k))).
        -- rewrite len_app, len_cons. unfold len. lia.
        -- rewrite Hslice by assumption.
           rewrite nesting_cons, bump_lbrace. lia.
    + intros Hno.
      destruct (Ascii.eqb_spec c lbrace) as [->|Hc].
      * destruct (close_offset r 1) as [k|] eqn:Hk.
        -- destruct (find_balanced_braces_at_inv pre (lbrace :: r) _ _ Hat)
             as (post & Hl & Hbal & He).
           exists (firstn k r), post. rewrite <- He. auto.
        -- exfalso. apply Hno. right; right. intros j Hj.
           rewrite len_app, len_cons in Hj.
           destruct (Z.eq_dec j (len pre)) as [->|Hne].
           ++ pose proof (py_slice_app pre [lbrace] r) as E. simpl app in E.
              change (len [lbrace]) with 1 in E. rewrite E. discriminate.
           ++ replace j
                with (len pre + Z.of_nat (S (Z.to_nat (j - len pre - 1))))
                by lia.
              assert (Hk' : (Z.to_nat (j - len pre - 1) < length r)%nat)
                by (unfold len in *; lia).
              rewrite Hslice by assumption.
              rewrite nesting_cons, bump_lbrace.
              specialize (Hnest _ Hk'). lia.
      * exfalso. apply Hno. right; left. rewrite py_index_app. congruence.
Qed.

Lemma find_balanced_braces_correct_witness :
  brace_matcher_contract (lit "a{b{c}d}e") 1.
Proof.
  apply (find_balanced_braces_correct (lit "a{b{c}d}e") 1). lia.
Defined.

(** C3 as stated, for every position, fails at negative positions.  At
    [-1] the text [}{] has its last character, an opening brace with nothing
    after it, yet the matcher wraps around to the closing brace at index [0]
    and answers with a group and the end index [1]; at [-1] on the empty text
    it raises. *)
Lemma find_balanced_braces_negative_position :
  _find_balanced_braces (lit "}{") (-1) = Ret (Some [], 1)
  /\ _find_balanced_braces [] (-1) = Raise IndexError
  /\ ~ brace_matcher_contract (lit "}{") (-1)
  /\ ~ brace_matcher_contract [] (-1).
Proof.
  split; [reflexivity|]. split; [reflexivity|]. split.
  - intros [Hfail _].
    assert (Hno : no_group_at (lit "}{") (-1)) by (left; left; lia).
    specialize (Hfail Hno). discriminate.
  - intros [Hfail _].
    assert (Hno : no_group_at [] (-1)) by (left; left; lia).
    specialize (Hfail Hno). discriminate.
Qed.

(** ** The command pattern: where a match lies *)

Lemma opt_groups_bounds : forall l st committed cur,
  (committed <= cur)%nat ->
  (committed <= opt_groups l st committed cur <= cur + length l)%nat.
Proof.
  induction l as [|c r IH]; intros st committed cur Hc; simpl.
  - lia.
  - destruct st.
    + destruct (is_space c).
      * specialize (IH SkipSpace committed (S cur)). lia.
      * destruct (Ascii.eqb c lbracket); [|lia].
        specialize (IH InBracket committed (S cur)). lia.
    + destruct (Ascii.eqb c rbracket).
      * specialize (IH SkipSpace (S cur) (S cur)). lia.
      * destruct (Ascii.eqb c newline); [lia|].
        specialize (IH InBracket committed (S cur)). lia.
Qed.

Lemma is_prefix_length : forall p l,
  is_prefix p l = true -> (length p <= length l)%nat.
Proof.
  induction p as [|a p IH]; intros [|b l]; simpl; try lia; try discriminate.
  intros Hp. apply andb_true_iff in Hp. destruct Hp as [_ Hp].
  apply IH in Hp. lia.
Qed.

Lemma match_here_inv keys l name n :
  match_here keys l = Some (name, n) ->
  exists r, l = backslash :: r
            /\ In name (alternatives keys)
            /\ (1 <= n <= length l)%nat.
Proof.
  unfold match_here. destruct l as [|c r]; [discriminate|].
  destruct (Ascii.eqb_spec c backslash) as [->|]; [|discriminate].
  destruct (find _ _) as [nm|] eqn:Hf; [|discriminate].
  intros [= <- <-]. apply find_some in Hf. destruct Hf as [Hin Hp].
  apply is_prefix_length in Hp.
  exists r. split; [reflexivity|]. split; [assumption|].
  pose proof (opt_groups_bounds (skipn (length nm) r) SkipSpace 0 0 (le_n 0))
    as Hb.
  rewrite length_skipn in Hb. simpl length. lia.
Qed.

(** A match found by [search] cuts the text in three: what is before it,
    the matched text, which starts with the backslash, and the rest. *)
Lemma search_from_inv keys : forall l pos m,
  search_from keys l pos = Some m ->
  exists before matched rest,
    l = before ++ matched ++ rest
    /\ m_start m = Z.of_nat pos + len before
    /\ m_end m = Z.of_nat pos + len before + len matched
    /\ (exists tl, matched = backslash :: tl)
    /\ In (m_group1 m) (alternatives keys).
Proof.
  induction l as [|c r IH]; intros pos m.
  - simpl. discriminate.
  - cbn [search_from].
    destruct (match_here keys (c :: r)) as [[nm n]|] eqn:Hm.
    + intros [= <-]. cbn [m_start m_end m_group1].
      destruct (match_here_inv _ _ _ _ Hm) as (r' & [= -> <-] & Hin & Hn).
      exists [], (firstn n (backslash :: r)), (skipn n (backslash :: r)).
      rewrite app_nil_l, firstn_skipn.
      split; [reflexivity|]. split; [unfold len; simpl; lia|].
      split; [unfold len; rewrite length_firstn; simpl length in *; lia|].
      split; [|assumption].
      destruct n as [|n']; [lia|]. simpl. eauto.
    + intros Hs.
      destruct (IH _ _ Hs)
        as (before & matched & rest & -> & H1 & H2 & H3 & H4).
      exists (c :: before), matched, rest.
      split; [reflexivity|]. rewrite len_cons.
      split; [lia|]. split; [lia|]. split; assumption.
Qed.

Lemma search_inv keys text m :
  search keys text = Some m ->
  exists before matched rest,
    text = before ++ matched ++ rest
    /\ m_start m = len before
    /\ m_end m = len before + len matched
    /\ (exists tl, matched = backslash :: tl)
    /\ In (m_group1 m) (alternatives keys).
Proof.
  intros Hs. apply search_from_inv in Hs.
  destruct Hs as (before & matched & rest & E & H1 & H2 & H3 & H4).
  exists before, matched, rest. simpl in H1, H2. auto.
Qed.

Lemma str_eqb_eq a b : str_eqb a b = true <-> a = b.
Proof.
  unfold str_eqb. destruct (list_eq_dec ascii_dec a b); split; congruence.
Qed.

Lemma lookup_keys : forall (m : list (str * Command)) key,
  In key (map fst m) -> exists c, lookup m key = Ret c /\ In (key, c) m.
Proof.
  induction m as [|[k c] m IH]; intros key; simpl; [tauto|].
  destruct (str_eqb k key) eqn:E.
  - intros _. apply str_eqb_eq in E. subst. eauto.
  - intros [->|Hin].
    + assert (str_eqb key key = true) by now apply str_eqb_eq. congruence.
    + destruct (IH _ Hin) as (c' & Hl & Hc). eauto.
Qed.

(** ** Collecting the arguments *)

Lemma len_braced a : len (braced a) = len a + 2.
Proof.
  unfold braced. rewrite len_cons, len_app.
  change (len [rbrace]) with 1. lia.
Qed.

Lemma app_braced pre a post :
  (pre ++ braced a) ++ post = pre ++ lbrace :: a ++ rbrace :: post.
Proof.
  unfold braced. rewrite <- app_assoc. simpl. now rewrite <- app_assoc.
Qed.

Lemma groups_cons a args : groups (a :: args) = braced a ++ groups args.
Proof. reflexivity. Qed.

(** A row of properly nested groups is collected whole. *)
Lemma collect_args_groups : forall args pre rest acc,
  Forall balanced args ->
  collect_args (pre ++ groups args ++ rest) (length args) acc (len pre)
  = Ret (acc ++ args, len pre + len (groups args)).
Proof.
  induction args as [|a args IH]; intros pre rest acc Hb.
  - simpl. rewrite app_nil_r. change (len (groups [])) with 0.
    now rewrite Z.add_0_r.
  - inversion Hb as [|? ? Ha Hb']; subst.
    cbn [length collect_args]. rewrite groups_cons.
    assert (E : pre ++ (braced a ++ groups args) ++ rest
                = pre ++ lbrace :: a ++ rbrace :: (groups args ++ rest)).
    { unfold braced. simpl. rewrite <- !app_assoc. reflexivity. }
    rewrite E, find_balanced_braces_group by assumption.
    specialize (IH (pre ++ braced a) rest (acc ++ [a]) Hb').
    rewrite <- E.
    replace (pre ++ (braced a ++ groups args) ++ rest)
      with ((pre ++ braced a) ++ groups args ++ rest)
      by (rewrite <- !app_assoc; reflexivity).
    rewrite len_app, len_braced in IH.
    replace (len pre + len a + 2) with (len pre + (len a + 2)) by lia.
    rewrite IH, <- app_assoc. rewrite (len_app (braced a)), len_braced.
    change ([a] ++ args) with (a :: args). f_equal. f_equal. lia.
Qed.

(** Whatever was collected is such a row. *)
Lemma collect_args_inv : forall n pre l acc args' q,
  collect_args (pre ++ l) n acc (len pre) = Ret (args', q) ->
  q <> -1 ->
  exists args rest,
    l = groups args ++ rest
    /\ length args = n /\ Forall balanced args
    /\ args' = acc ++ args
    /\ q = len pre + len (groups args).
Proof.
  induction n as [|n IH]; intros pre l acc args' q; cbn [collect_args].
  - intros [= <- <-] _. exists [], l. rewrite app_nil_r.
    repeat split; auto. change (len (groups [])) with 0. lia.
  - destruct (_find_balanced_braces (pre ++ l) (len pre))
      as [[[content|] next_pos]|e] eqn:Hf; try discriminate.
    + apply find_balanced_braces_at_inv in Hf.
      destruct Hf as (post & -> & Hbal & ->).
      rewrite <- app_braced.
      replace (len pre + len content + 2) with (len (pre ++ braced content))
        by (rewrite len_app, len_braced; lia).
      intros Hc Hq.
      destruct (IH _ _ _ _ _ Hc Hq) as (args & rest & -> & Hn & Hb & -> & ->).
      exists (content :: args), rest. rewrite groups_cons.
      split; [rewrite <- app_assoc;
              exact (eq_sym (app_braced [] content (groups args ++ rest)))|].
      split; [simpl; lia|]. split; [now constructor|].
      split; [now rewrite <- app_assoc|].
      rewrite !len_app. lia.
    + intros [= <- <-] Hq. contradiction.
Qed.

(** From a position inside the text the collection never raises. *)
Lemma collect_args_total : forall n pre l acc,
  exists args' q, collect_args (pre ++ l) n acc (len pre) = Ret (args', q).
Proof.
  induction n as [|n IH]; intros pre l acc; cbn [collect_args]; [eauto|].
  destruct (find_balanced_braces_at_total pre l) as [Hf|(content & e & Hf)];
    rewrite Hf; [eauto|].
  apply find_balanced_braces_at_inv in Hf.
  destruct Hf as (post & -> & Hbal & ->).
  rewrite <- app_braced.
  replace (len pre + len content + 2) with (len (pre ++ braced content))
    by (rewrite len_app, len_braced; lia).
  apply IH.
Qed.

Lemma len_groups_pos a args : 2 <= len (groups (a :: args)).
Proof.
  rewrite groups_cons, len_app, len_braced.
  pose proof (len_nonneg a). pose proof (len_nonneg (groups args)). lia.
Qed.

(** A failed collection shows a malformed occurrence. *)
Lemma malformed_by_collect n rest acc :
  collect_args rest n [] 0 = Ret (acc, -1) -> malformed n rest.
Proof.
  intros Hc args after (-> & Hn & Hbal).
  pose proof (collect_args_groups args [] after [] Hbal) as Hg.
  simpl app in Hg. change (len []) with 0 in Hg. rewrite Hn, Hc in Hg.
  pose proof (len_nonneg (groups args)).
  injection Hg as _ Hg. lia.
Qed.

(** An occurrence is well formed or malformed. *)
Lemma well_formed_or_malformed n rest :
  (exists args after, well_formed n rest args after) \/ malformed n rest.
Proof.
  destruct (collect_args_total n [] rest []) as (args' & q & Hc).
  destruct (Z.eq_dec q (-1)) as [->|Hq].
  - right. exact (malformed_by_collect _ _ _ Hc).
  - left. destruct (collect_args_inv _ _ _ _ _ _ Hc Hq)
      as (args & after & E & Hn & Hbal & _).
    exists args, after. repeat split; assumption.
Qed.

(** ** One turn of the loop *)

Section Step.

Variable COMMAND_MAP : list (str * Command).
Variable H : Type.
Variable get_decision_for_change : H -> Command -> list str -> str * H.

(** Every match can be read as a [first_match]. *)
Lemma first_match_exists text m :
  command_regex_search COMMAND_MAP text = Some m ->
  exists before matched rest,
    first_match COMMAND_MAP text before matched rest (m_group1 m)
    /\ (exists tl, matched = backslash :: tl)
    /\ In (m_group1 m) (alternatives (map fst COMMAND_MAP)).
Proof.
  intros Hs. destruct (search_inv _ _ _ Hs) as
      (before & matched & rest & E & H1 & H2 & H3 & H4).
  exists before, matched, rest. split; [|auto].
  split; [assumption|].
  unfold command_regex_search in Hs. rewrite Hs.
  destruct m as [s e g]. simpl in *. congruence.
Qed.

(** The turn on a well-formed occurrence. *)
Lemma process_step_well_formed text h before matched rest command_name
      command args after action h' :
  first_match COMMAND_MAP text before matched rest command_name ->
  lookup COMMAND_MAP command_name = Ret command ->
  well_formed (num_args command) rest args after ->
  get_decision_for_change h command args = (action, h') ->
  process_step COMMAND_MAP get_decision_for_change text h
  = Continue (before
                ++ (if str_eqb action (lit "a") then accept command args
                    else if str_eqb action (lit "r") then reject command args
                    else if str_eqb action (lit "k") then matched ++ groups args
                    else [])
                ++ after)
             h' (Decision command args action).
Proof.
  intros [Htext Hsearch] Hlook (-> & Hn & Hbal) Hdec.
  unfold process_step, command_regex_search.
  rewrite Hsearch. cbn [m_group1 m_start m_end]. rewrite Hlook.
  assert (Ht : text = (before ++ matched) ++ groups args ++ after)
    by (rewrite Htext, <- app_assoc; reflexivity).
  rewrite <- len_app, <- Hn.
  rewrite Ht at 1. rewrite collect_args_groups by assumption.
  pose proof (len_nonneg (before ++ matched)).
  pose proof (len_nonneg (groups args)).
  destruct (Z.eqb_spec (len (before ++ matched) + len (groups args)) (-1));
    [lia|].
  cbn [app]. rewrite Hdec. f_equal. f_equal.
  - rewrite Htext. apply py_slice_to_app.
  - f_equal.
    + unfold replacement_for. cbn [m_start].
      destruct (str_eqb action (lit "a")); [reflexivity|].
      destruct (str_eqb action (lit "r")); [reflexivity|].
      destruct (str_eqb action (lit "k")); [|reflexivity].
      rewrite Htext, len_app, <- Z.add_assoc, <- len_app.
      rewrite (app_assoc matched). apply py_slice_app.
    + rewrite <- len_app, Ht, app_assoc. apply py_slice_from_app.
Qed.

(** The turn on a malformed occurrence. *)
Lemma process_step_malformed text h before matched rest command_name command :
  first_match COMMAND_MAP text before matched rest command_name ->
  lookup COMMAND_MAP command_name = Ret command ->
  malformed (num_args command) rest ->
  process_step COMMAND_MAP get_decision_for_change text h
  = Continue (before ++ rest) h (Warning command_name (len before)).
Proof.
  intros [Htext Hsearch] Hlook Hmal.
  unfold process_step, command_regex_search.
  rewrite Hsearch. cbn [m_group1 m_start m_end]. rewrite Hlook.
  assert (Ht : text = (before ++ matched) ++ rest)
    by (rewrite Htext, <- app_assoc; reflexivity).
  rewrite <- len_app.
  destruct (collect_args_total (num_args command) (before ++ matched) rest [])
    as (args' & q & Hc).
  rewrite Ht at 1. rewrite Hc.
  destruct (Z.eqb_spec q (-1)) as [->|Hq].
  - f_equal. f_equal.
    + rewrite Htext. apply py_slice_to_app.
    + rewrite Ht. apply py_slice_from_app.
  - exfalso.
    destruct (collect_args_inv _ _ _ _ _ _ Hc Hq)
      as (args & after & E & Hn & Hbal & _).
    apply (Hmal args after). repeat split; assumption.
Qed.

End Step.

(** ** The loop *)

Lemma search_none_occurrences keys : forall l pos,
  search_from keys l pos = None <-> occurrences_from keys l pos = [].
Proof.
  induction l as [|c r IH]; intros pos;
    cbn [search_from occurrences_from].
  - simpl. tauto.
  - destruct (match_here keys (c :: r)) as [[nm n]|].
    + split; discriminate.
    + apply IH.
Qed.

Section Loop.

Variable COMMAND_MAP : list (str * Command).
Variable H : Type.
Variable get_decision_for_change : H -> Command -> list str -> str * H.

Lemma process_unfold fuel text h :
  process COMMAND_MAP get_decision_for_change (S fuel) text h
  = match process_step COMMAND_MAP get_decision_for_change text h with
    | Break => Finished text h []
    | Fail e => Raised e []
    | Continue text' h' ev =>
        match process COMMAND_MAP get_decision_for_change fuel text' h' with
        | Finished out hf trace => Finished out hf (ev :: trace)
        | Raised e trace => Raised e (ev :: trace)
        | OutOfFuel trace => OutOfFuel (ev :: trace)
        end
    end.
Proof. reflexivity. Qed.

(** More turns do not change a result. *)
Lemma process_more_fuel : forall fuel text h out hf trace more,
  process COMMAND_MAP get_decision_for_change fuel text h
  = Finished out hf trace ->
  process COMMAND_MAP get_decision_for_change (fuel + more) text h
  = Finished out hf trace.
Proof.
  induction fuel as [|fuel IH]; intros text h out hf trace more.
  - discriminate.
  - change (S fuel + more)%nat with (S (fuel + more)).
    rewrite !process_unfold.
    destruct (process_step COMMAND_MAP get_decision_for_change text h)
      as [|text' h' ev|e]; try (intros Hr; exact Hr).
    destruct (process COMMAND_MAP get_decision_for_change fuel text' h')
      as [o1 h1 t1| |] eqn:Hr; try discriminate.
    intros [= <- <- <-]. now rewrite (IH _ _ _ _ _ more Hr).
Qed.

(** The result does not depend on the number of turns allowed. *)
Lemma process_deterministic fuel1 fuel2 text h out1 hf1 trace1 out2 hf2 trace2 :
  process COMMAND_MAP get_decision_for_change fuel1 text h
  = Finished out1 hf1 trace1 ->
  process COMMAND_MAP get_decision_for_change fuel2 text h
  = Finished out2 hf2 trace2 ->
  out1 = out2 /\ hf1 = hf2 /\ trace1 = trace2.
Proof.
  intros H1 H2.
  apply (process_more_fuel _ _ _ _ _ _ fuel2) in H1.
  apply (process_more_fuel _ _ _ _ _ _ fuel1) in H2.
  rewrite Nat.add_comm in H2. rewrite H1 in H2.
  injection H2 as -> -> ->. auto.
Qed.

(** What [process] returns has no occurrence left. *)
Lemma process_result_clean : forall fuel text h out hf trace,
  process COMMAND_MAP get_decision_for_change fuel text h
  = Finished out hf trace ->
  occurrences COMMAND_MAP out = [].
Proof.
  induction fuel as [|fuel IH]; intros text h out hf trace.
  - discriminate.
  - rewrite process_unfold.
    destruct (process_step COMMAND_MAP get_decision_for_change text h)
      as [|text' h' ev|e] eqn:Hs; try discriminate.
    + intros [= <- <- <-].
      unfold process_step in Hs.
      destruct (command_regex_search COMMAND_MAP text) as [m|] eqn:Hm.
      * destruct (lookup COMMAND_MAP (m_group1 m)); [|discriminate].
        destruct (collect_args _ _ _ _) as [[args q]|]; [|discriminate].
        destruct (q =? -1); [discriminate|].
        destruct (get_decision_for_change _ _ _); discriminate.
      * unfold occurrences. now apply search_none_occurrences.
    + destruct (process COMMAND_MAP get_decision_for_change fuel text' h')
        as [o1 h1 t1| |] eqn:Hr; try discriminate.
      intros [= <- <- <-]. eapply IH. exact Hr.
Qed.

End Loop.

(** ** Keep decisions and the measure of progress *)

Lemma count_backslash_app a b :
  count_backslash (a ++ b) = (count_backslash a + count_backslash b)%nat.
Proof. apply count_occ_app. Qed.

Lemma count_backslash_cons tl :
  count_backslash (backslash :: tl) = S (count_backslash tl).
Proof. unfold count_backslash. now rewrite count_occ_cons_eq. Qed.

Lemma count_backslash_groups : forall args : list str,
  count_backslash (groups args) = count_backslash (concat args).
Proof.
  induction args as [|a args IH]; [reflexivity|].
  rewrite groups_cons. cbn [concat]. rewrite !count_backslash_app, IH.
  f_equal. unfold braced, count_backslash.
  rewrite count_occ_cons_neq by discriminate.
  rewrite count_occ_app. simpl. lia.
Qed.

Section Progress.

Variable COMMAND_MAP : list (str * Command).
Variable H : Type.
Variable get_decision_for_change : H -> Command -> list str -> str * H.

(** A decision source that keeps an occurrence whenever it is asked about
    it is asked at every turn, and the loop does not end. *)
Lemma keep_never_returns text before matched rest command_name command
      args after :
  first_match COMMAND_MAP text before matched rest command_name ->
  lookup COMMAND_MAP command_name = Ret command ->
  well_formed (num_args command) rest args after ->
  (forall h, fst (get_decision_for_change h command args) = lit "k") ->
  forall fuel h,
    process COMMAND_MAP get_decision_for_change fuel text h
    = OutOfFuel (repeat (Decision command args (lit "k")) fuel).
Proof.
  intros Hm Hl Hw Hk.
  induction fuel as [|fuel IH]; intros h; [reflexivity|].
  destruct (get_decision_for_change h command args) as [action h'] eqn:Hd.
  pose proof (Hk h) as Ha. rewrite Hd in Ha. cbn [fst] in Ha. subst action.
  pose proof (process_step_well_formed COMMAND_MAP H get_decision_for_change
                _ _ _ _ _ _ _ _ _ _ _ Hm Hl Hw Hd) as Hstep.
  change (if str_eqb (lit "k") (lit "a") then _ else _)
    with (matched ++ groups args) in Hstep.
  destruct Hm as [Htext Hsearch]. destruct Hw as (Hrest & Hw).
  rewrite <- app_assoc, <- Hrest, <- Htext in Hstep.
  rewrite process_unfold, Hstep.
  rewrite IH. reflexivity.
Qed.

Hypothesis registry_not_empty : COMMAND_MAP <> [].
Hypothesis never_keep :
  forall h command args,
    fst (get_decision_for_change h command args) <> lit "k".
Hypothesis transforms_add_no_backslash :
  forall key command args,
    In (key, command) COMMAND_MAP ->
    length args = num_args command ->
    (count_backslash (accept command args) <= count_backslash (concat args)
     /\ count_backslash (reject command args)
        <= count_backslash (concat args))%nat.

(** Each turn that rewrites the buffer removes a backslash. *)
Lemma step_progress text h :
  process_step COMMAND_MAP get_decision_for_change text h = Break
  \/ exists text' h' ev,
       process_step COMMAND_MAP get_decision_for_change text h
       = Continue text' h' ev
       /\ (count_backslash text' < count_backslash text)%nat.
Proof.
  destruct (command_regex_search COMMAND_MAP text) as [m|] eqn:Hs.
  - right.
    destruct (first_match_exists _ _ _ Hs)
      as (before & matched & rest & Hm & (tl & ->) & Hin).
    assert (Hkeys : alternatives (map fst COMMAND_MAP) = map fst COMMAND_MAP).
    { destruct COMMAND_MAP; [contradiction|reflexivity]. }
    rewrite Hkeys in Hin.
    destruct (lookup_keys _ _ Hin) as (command & Hl & Hc).
    pose proof Hm as [Htext _].
    destruct (well_formed_or_malformed (num_args command) rest)
      as [(args & after & Hw)|Hmal].
    + destruct (get_decision_for_change h command args) as [action h'] eqn:Hd.
      pose proof (process_step_well_formed COMMAND_MAP H
                    get_decision_for_change
                    _ _ _ _ _ _ _ _ _ _ _ Hm Hl Hw Hd) as Hstep.
      rewrite Hstep.
      do 3 eexists. split; [reflexivity|].
      destruct Hw as (-> & Hn & _). rewrite Htext.
      rewrite !count_backslash_app, count_backslash_cons.
      rewrite count_backslash_groups.
      destruct (transforms_add_no_backslash _ _ args Hc Hn) as [Ea Er].
      pose proof (never_keep h command args) as Hk. rewrite Hd in Hk.
      cbn [fst] in Hk.
      destruct (str_eqb action (lit "a")); [lia|].
      destruct (str_eqb action (lit "r")); [lia|].
      destruct (str_eqb action (lit "k")) eqn:Ek;
        [apply str_eqb_eq in Ek; contradiction|].
      change (count_backslash []) with O. lia.
    + pose proof (process_step_malformed COMMAND_MAP H
                    get_decision_for_change text h
                    _ _ _ _ _ Hm Hl Hmal) as Hstep.
      rewrite Hstep.
      do 3 eexists. split; [reflexivity|].
      rewrite Htext, !count_backslash_app, count_backslash_cons. lia.
  - left. unfold process_step. now rewrite Hs.
Qed.

Lemma process_bounded : forall fuel text h,
  (count_backslash text < fuel)%nat ->
  exists out hf trace,
    process COMMAND_MAP get_decision_for_change fuel text h
    = Finished out hf trace
    /\ (length trace <= count_backslash text)%nat.
Proof.
  induction fuel as [|fuel IH]; intros text h Hlt; [lia|].
  rewrite process_unfold.
  destruct (step_progress text h) as [Hs|(text' & h' & ev & Hs & Hdec)];
    rewrite Hs.
  - exists text, h, []. split; [reflexivity|simpl; lia].
  - destruct (IH text' h' ltac:(lia)) as (out & hf & trace & Hr & Hn).
    rewrite Hr.
    exists out, hf, (ev :: trace). split; [reflexivity|simpl; lia].
Qed.

End Progress.

(** ** Properties of the positions *)

(** C10. When the matcher succeeds on [(text, pos)], the end position lies
    between [pos + 2] and [len text], the character just before it is a
    closing brace, and the content is [text[pos+1 : end_pos-1]].  Hence the
    positions of the engine stay ordered and inside the text: the match
    start, the match end, and the end of the collected arguments, which lies
    past the match end as soon as an argument is collected. *)
Theorem find_balanced_braces_bounds :
  (forall text pos content end_pos,
      _find_balanced_braces text pos = Ret (Some content, end_pos) ->
      pos + 2 <= end_pos <= len text
      /\ py_index text (end_pos - 1) = Ret rbrace
      /\ content = py_slice text (pos + 1) (end_pos - 1))
  /\ (forall keys text m n args q,
         search keys text = Some m ->
         collect_args text n [] (m_end m) = Ret (args, q) ->
         q <> -1 ->
         0 <= m_start m < m_end m
         /\ m_end m <= q <= len text
         /\ (n <> O -> m_end m < q)).
Proof.
  split.
  - intros text pos content end_pos. unfold _find_balanced_braces.
    destruct (Z.leb_spec (len text) pos) as [|Hlt]; [discriminate|].
    destruct (py_index text pos) as [c|e] eqn:Hc; [|discriminate].
    destruct (Ascii.eqb_spec c lbrace) as [->|Hne]; simpl negb;
      [|discriminate].
    rewrite range_cons by assumption. simpl brace_loop. rewrite Hc.
    rewrite bump_lbrace. simpl Z.eqb.
    intros Hloop.
    apply brace_loop_success in Hloop; [|lia].
    destruct Hloop as (i & Hi & -> & -> & Hr).
    apply range_In in Hi.
    replace (i + 1 - 1) with i by lia. repeat split; (lia || assumption).
  - intros keys text m n args q Hs Hc Hq.
    destruct (search_inv _ _ _ Hs)
      as (before & matched & rest & -> & H1 & H2 & (tl & ->) & _).
    rewrite H1, H2 in *. rewrite <- len_app, app_assoc in Hc.
    destruct (collect_args_inv _ _ _ _ _ _ Hc Hq)
      as (args' & after & -> & Hn & _ & _ & ->).
    pose proof (len_nonneg before). pose proof (len_nonneg tl).
    pose proof (len_nonneg after). pose proof (len_nonneg (groups args')).
    rewrite !len_app, len_cons.
    split; [lia|]. split; [lia|].
    intros Hn0. destruct args' as [|a args']; [simpl in Hn; congruence|].
    pose proof (len_groups_pos a args'). lia.
Qed.

Lemma find_balanced_braces_bounds_witness :
  1 + 2 <= 8 <= len (lit "a{b{c}d}e")
  /\ py_index (lit "a{b{c}d}e") (8 - 1) = Ret rbrace
  /\ lit "b{c}d" = py_slice (lit "a{b{c}d}e") (1 + 1) (8 - 1).
Proof.
  apply (proj1 find_balanced_braces_bounds
               (lit "a{b{c}d}e") 1 (lit "b{c}d") 8).
  reflexivity.
Defined.

(** ** Properties of one turn *)

(** C5. On a well-formed occurrence the turn asks the decision source once
    and builds the next buffer as the text before the match, the replacement,
    and the text after the last argument; the replacement is the accept
    transform of the arguments for accept, the reject transform for reject,
    and the original text of the occurrence for keep. *)
Theorem decision_replacement_and_splice
        (COMMAND_MAP : list (str * Command)) (H : Type)
        (get_decision_for_change : H -> Command -> list str -> str * H)
        text h before matched rest command_name command args after action h' :
  first_match COMMAND_MAP text before matched rest command_name ->
  lookup COMMAND_MAP command_name = Ret command ->
  well_formed (num_args command) rest args after ->
  get_decision_for_change h command args = (action, h') ->
  exists replacement,
    process_step COMMAND_MAP get_decision_for_change text h
    = Continue (before ++ replacement ++ after) h'
               (Decision command args action)
    /\ before = py_slice_to text (len before)
    /\ after = py_slice_from text (len before + len matched + len (groups args))
    /\ (action = lit "a" -> replacement = accept command args)
    /\ (action = lit "r" -> replacement = reject command args)
    /\ (action = lit "k" ->
        replacement = matched ++ groups args
        /\ replacement
           = py_slice text (len before)
                      (len before + len matched + len (groups args))).
Proof.
  intros Hm Hl Hw Hd.
  pose proof (process_step_well_formed COMMAND_MAP H get_decision_for_change
                _ _ _ _ _ _ _ _ _ _ _ Hm Hl Hw Hd) as Hstep.
  destruct Hm as [Htext _]. destruct Hw as (-> & _ & _).
  eexists. split; [exact Hstep|].
  split; [rewrite Htext; symmetry; apply py_slice_to_app|].
  split.
  { rewrite Htext, !app_assoc, <- !len_app. symmetry. apply py_slice_from_app. }
  split; [|split].
  - intros ->. reflexivity.
  - intros ->. reflexivity.
  - intros ->. split; [reflexivity|].
    change (if str_eqb (lit "k") (lit "a") then _ else _)
      with (matched ++ groups args).
    rewrite Htext, (app_assoc matched), <- Z.add_assoc, <- len_app.
    symmetry. apply py_slice_app.
Qed.

(** C6. An answer other than accept, reject and keep gives the empty
    replacement: the occurrence, up to the end of its last argument, is
    removed and the text around it is joined. *)
Theorem unknown_decision_removes_occurrence
        (COMMAND_MAP : list (str * Command)) (H : Type)
        (get_decision_for_change : H -> Command -> list str -> str * H)
        text h before matched rest command_name command args after action h' :
  first_match COMMAND_MAP text before matched rest command_name ->
  lookup COMMAND_MAP command_name = Ret command ->
  well_formed (num_args command) rest args after ->
  get_decision_for_change h command args = (action, h') ->
  action <> lit "a" -> action <> lit "r" -> action <> lit "k" ->
  text = before ++ (matched ++ groups args) ++ after
  /\ process_step COMMAND_MAP get_decision_for_change text h
     = Continue (before ++ after) h' (Decision command args action).
Proof.
  intros Hm Hl Hw Hd Ha Hr Hk.
  pose proof (process_step_well_formed COMMAND_MAP H get_decision_for_change
                _ _ _ _ _ _ _ _ _ _ _ Hm Hl Hw Hd) as Hstep.
  destruct Hm as [Htext _]. destruct Hw as (-> & _ & _).
  split; [now rewrite Htext, <- app_assoc|].
  rewrite Hstep.
  destruct (str_eqb action (lit "a")) eqn:Ea;
    [apply str_eqb_eq in Ea; contradiction|].
  destruct (str_eqb action (lit "r")) eqn:Er;
    [apply str_eqb_eq in Er; contradiction|].
  destruct (str_eqb action (lit "k")) eqn:Ek;
    [apply str_eqb_eq in Ek; contradiction|].
  reflexivity.
Qed.

(** C9. For keep, the replacement is the replaced span itself, and the
    buffer of the next turn is the buffer of this turn. *)
Theorem keep_splice_is_identity
        (COMMAND_MAP : list (str * Command)) (H : Type)
        (get_decision_for_change : H -> Command -> list str -> str * H)
        text h before matched rest command_name command args after h' :
  first_match COMMAND_MAP text before matched rest command_name ->
  lookup COMMAND_MAP command_name = Ret command ->
  well_formed (num_args command) rest args after ->
  get_decision_for_change h command args = (lit "k", h') ->
  replacement_for text
    {| m_start := len before; m_end := len before + len matched;
       m_group1 := command_name |}
    command args (len before + len matched + len (groups args)) (lit "k")
  = py_slice text (len before) (len before + len matched + len (groups args))
  /\ py_slice text (len before) (len before + len matched + len (groups args))
     = matched ++ groups args
  /\ process_step COMMAND_MAP get_decision_for_change text h
     = Continue text h' (Decision command args (lit "k")).
Proof.
  intros Hm Hl Hw Hd.
  pose proof (process_step_well_formed COMMAND_MAP H get_decision_for_change
                _ _ _ _ _ _ _ _ _ _ _ Hm Hl Hw Hd) as Hstep.
  destruct Hm as [Htext _]. destruct Hw as (-> & _ & _).
  split; [reflexivity|]. split.
  - rewrite Htext, (app_assoc matched), <- Z.add_assoc, <- len_app.
    apply py_slice_app.
  - rewrite Hstep.
    change (if str_eqb (lit "k") (lit "a") then _ else _)
      with (matched ++ groups args).
    rewrite <- app_assoc, <- Htext. reflexivity.
Qed.

(** C4. On a malformed occurrence the turn deletes the matched text of the
    command name and nothing else, reports the name and the position, leaves
    the decision source alone, and the loop goes on with the next turn.  In
    particular [\cmdname{unbalanced] comes out as [{unbalanced], with one
    warning and no occurrence left. *)
Theorem malformed_recovery :
  (forall (COMMAND_MAP : list (str * Command)) (H : Type)
          (get_decision_for_change : H -> Command -> list str -> str * H)
          text h before matched rest command_name command fuel,
      first_match COMMAND_MAP text before matched rest command_name ->
      lookup COMMAND_MAP command_name = Ret command ->
      malformed (num_args command) rest ->
      process_step COMMAND_MAP get_decision_for_change text h
      = Continue (before ++ rest) h (Warning command_name (len before))
      /\ process COMMAND_MAP get_decision_for_change (S fuel) text h
         = match process COMMAND_MAP get_decision_for_change fuel
                         (before ++ rest) h with
           | Finished out hf trace =>
               Finished out hf (Warning command_name (len before) :: trace)
           | Raised e trace =>
               Raised e (Warning command_name (len before) :: trace)
           | OutOfFuel trace =>
               OutOfFuel (Warning command_name (len before) :: trace)
           end)
  /\ (forall (cmd : Command) (H : Type)
             (get_decision_for_change : H -> Command -> list str -> str * H) h,
         num_args cmd <> O ->
         process_returns [(lit "cmdname", cmd)] get_decision_for_change
                         (lit "\cmdname{unbalanced") h
                         (lit "{unbalanced") h [Warning (lit "cmdname") 0]
         /\ decisions [Warning (lit "cmdname") 0] = O
         /\ occurrences [(lit "cmdname", cmd)] (lit "{unbalanced") = []
         /\ warning_line (lit "cmdname") 0
            = lit "Warning: Malformed command '\cmdname' at position 0. Skipping.").
Proof.
  split.
  - intros COMMAND_MAP H dec text h before matched rest command_name command
           fuel Hm Hl Hmal.
    pose proof (process_step_malformed COMMAND_MAP H dec text h _ _ _ _ _
                  Hm Hl Hmal) as Hstep.
    split; [exact Hstep|].
    unfold process. cbn [process_loop]. rewrite Hstep. reflexivity.
  - intros [nm n acc rej] H dec h Hn. simpl in Hn.
    destruct n as [|n]; [contradiction|].
    split; [exists 2%nat; reflexivity|]. repeat split.
Qed.

Lemma malformed_recovery_witness :
  process_step [(lit "added", added)] (always "a")
               (lit "x\added [1]{y") tt
  = Continue (lit "x{y") tt (Warning (lit "added") 1).
Proof.
  apply (proj1 malformed_recovery [(lit "added", added)] unit (always "a")
               (lit "x\added [1]{y") tt (lit "x") (lit "\added [1]")
               (lit "{y") (lit "added") added O).
  - split; reflexivity.
  - reflexivity.
  - apply (malformed_by_collect 1 (lit "{y") []). reflexivity.
Defined.

(** ** Properties of the loop *)

(** C8. A text without any occurrence of a recognized command name comes
    back unchanged, and the decision source is never called. *)
Theorem process_clean_input
        (COMMAND_MAP : list (str * Command)) (H : Type)
        (get_decision_for_change : H -> Command -> list str -> str * H)
        text h fuel :
  occurrences COMMAND_MAP text = [] ->
  process COMMAND_MAP get_decision_for_change (S fuel) text h
  = Finished text h []
  /\ decisions [] = O.
Proof.
  intros Hocc. split; [|reflexivity].
  unfold occurrences in Hocc. apply search_none_occurrences in Hocc.
  unfold process. cbn [process_loop].
  unfold process_step, command_regex_search, search. now rewrite Hocc.
Qed.

Lemma process_clean_input_witness :
  process [(lit "added", added)] (always "a") 1 (lit "Hello {world}.") tt
  = Finished (lit "Hello {world}.") tt []
  /\ decisions [] = O.
Proof.
  apply (process_clean_input [(lit "added", added)] unit (always "a")
                             (lit "Hello {world}.") tt O).
  reflexivity.
Defined.

(** C7. With the one-argument kind [added] alone in the registry,
    [Hello \added{new text} world.] becomes [Hello new text world.] when
    every answer is accept and accepting returns the argument, and
    [Hello  world.], with both spaces, when every answer is reject and
    rejecting returns the empty text. *)
Theorem hello_added_scenarios (cmd : Command) :
  num_args cmd = 1%nat ->
  (forall a, accept cmd [a] = a) ->
  (forall args, reject cmd args = []) ->
  process_returns [(lit "added", cmd)] (always "a")
                  (lit "Hello \added{new text} world.") tt
                  (lit "Hello new text world.") tt
                  [Decision cmd [lit "new text"] (lit "a")]
  /\ process_returns [(lit "added", cmd)] (always "r")
                     (lit "Hello \added{new text} world.") tt
                     (lit "Hello  world.") tt
                     [Decision cmd [lit "new text"] (lit "r")].
Proof.
  intros Hn Hacc Hrej.
  assert (Hm : first_match [(lit "added", cmd)]
                 (lit "Hello \added{new text} world.")
                 (lit "Hello ") (lit "\added") (lit "{new text} world.")
                 (lit "added")) by (split; reflexivity).
  assert (Hl : lookup [(lit "added", cmd)] (lit "added") = Ret cmd)
    by reflexivity.
  assert (Hw : well_formed (num_args cmd) (lit "{new text} world.")
                           [lit "new text"] (lit " world.")).
  { rewrite Hn. split; [reflexivity|]. split; [reflexivity|].
    repeat constructor; discriminate. }
  split; exists 2%nat; rewrite process_unfold.
  - rewrite (process_step_well_formed _ _ (always "a") _ tt _ _ _ _ _ _ _
               (lit "a") tt Hm Hl Hw eq_refl).
    change (if str_eqb (lit "a") (lit "a") then ?x else _) with x.
    rewrite Hacc. reflexivity.
  - rewrite (process_step_well_formed _ _ (always "r") _ tt _ _ _ _ _ _ _
               (lit "r") tt Hm Hl Hw eq_refl).
    change (if str_eqb (lit "r") (lit "a") then _
            else if str_eqb (lit "r") (lit "r") then ?x else _) with x.
    rewrite Hrej. reflexivity.
Qed.

Lemma hello_added_scenarios_witness :
  process_returns [(lit "added", added)] (always "a")
                  (lit "Hello \added{new text} world.") tt
                  (lit "Hello new text world.") tt
                  [Decision added [lit "new text"] (lit "a")]
  /\ process_returns [(lit "added", added)] (always "r")
                     (lit "Hello \added{new text} world.") tt
                     (lit "Hello  world.") tt
                     [Decision added [lit "new text"] (lit "r")].
Proof.
  apply (hello_added_scenarios added).
  - reflexivity.
  - intros a. simpl. apply app_nil_r.
  - reflexivity.
Defined.

(** C1 fails on the code.  On [\added{x}] a decision source that always
    answers keep is asked again at every turn about the same occurrence and
    [process] never returns; one that answers keep and then accept is asked
    twice about it. *)
Theorem keep_is_offered_again :
  (forall fuel,
      process [(lit "added", added)] (always "k") fuel (lit "\added{x}") tt
      = OutOfFuel (repeat (Decision added [lit "x"] (lit "k")) fuel))
  /\ process [(lit "added", added)] keep_then_accept 3 (lit "\added{x}") O
     = Finished (lit "x") 2%nat
                [Decision added [lit "x"] (lit "k");
                 Decision added [lit "x"] (lit "a")].
Proof.
  split; [|reflexivity].
  intros fuel.
  apply (keep_never_returns [(lit "added", added)] unit (always "k")
           (lit "\added{x}") [] (lit "\added") (lit "{x}") (lit "added")
           added [lit "x"] []).
  - split; reflexivity.
  - reflexivity.
  - split; [reflexivity|]. split; [reflexivity|].
    repeat constructor; discriminate.
  - reflexivity.
Qed.

(** C2 (amended).  When the registry is not empty and its keys are plain
    words, the decision source never answers keep, and no transform returns
    more backslashes than its arguments hold, so that a transform brings in
    no command marker of its own, [process] returns after at most as many
    rewriting turns as the input has backslashes, and its output has no
    occurrence left. *)
Theorem process_terminates
        (COMMAND_MAP : list (str * Command)) (H : Type)
        (get_decision_for_change : H -> Command -> list str -> str * H)
        text h :
  COMMAND_MAP <> [] ->
  plain_keys COMMAND_MAP = true ->
  (forall h command args,
      fst (get_decision_for_change h command args) <> lit "k") ->
  (forall key command args,
      In (key, command) COMMAND_MAP ->
      length args = num_args command ->
      (count_backslash (accept command args) <= count_backslash (concat args)
       /\ count_backslash (reject command args)
          <= count_backslash (concat args))%nat) ->
  terminates_within COMMAND_MAP get_decision_for_change text h
                    (count_backslash text)
  /\ exists out hf trace,
       process COMMAND_MAP get_decision_for_change
               (S (count_backslash text)) text h
       = Finished out hf trace
       /\ (length trace <= count_backslash text)%nat
       /\ occurrences COMMAND_MAP out = [].
Proof.
  intros Hne _ Hk Ht.
  destruct (process_bounded COMMAND_MAP H get_decision_for_change Hne Hk Ht
              (S (count_backslash text)) text h (Nat.lt_succ_diag_r _))
    as (out & hf & trace & Hr & Hn).
  split.
  - exists (S (count_backslash text)), out, hf, trace. auto.
  - exists out, hf, trace. split; [assumption|]. split; [assumption|].
    eapply process_result_clean. exact Hr.
Qed.

Lemma process_terminates_witness :
  terminates_within [(lit "added", added)] (always "a")
                    (lit "Hello \added{new \added{text}} world.") tt
                    (count_backslash
                       (lit "Hello \added{new \added{text}} world."))
  /\ exists out hf trace,
       process [(lit "added", added)] (always "a")
               (S (count_backslash
                     (lit "Hello \added{new \added{text}} world.")))
               (lit "Hello \added{new \added{text}} world.") tt
       = Finished out hf trace
       /\ (length trace
           <= count_backslash
                (lit "Hello \added{new \added{text}} world."))%nat
       /\ occurrences [(lit "added", added)] out = [].
Proof.
  apply (process_terminates [(lit "added", added)] unit (always "a")
           (lit "Hello \added{new \added{text}} world.") tt).
  - discriminate.
  - reflexivity.
  - intros h command args. simpl. discriminate.
  - intros key command args [E|[]] _. injection E as _ <-.
    cbn [accept reject added]. split; [lia|].
    change (count_backslash []) with O. lia.
Defined.

(** C2 as stated fails.  [\ad\addedded{x}] has one occurrence of a
    recognized name and the transforms write nothing, yet [process] needs two
    rewriting turns: deleting the malformed [\added] joins [\ad] and [ded]
    into a new occurrence.  And with keep answers [process] does not return
    at all. *)
Lemma termination_bound_counterexample :
  length (occurrences [(lit "added", added_blank)] (lit "\ad\addedded{x}"))
  = 1%nat
  /\ (forall args, accept added_blank args = [] /\ reject added_blank args = [])
  /\ process [(lit "added", added_blank)] (always "r") 3
             (lit "\ad\addedded{x}") tt
     = Finished [] tt [Warning (lit "added") 3;
                       Decision added_blank [lit "x"] (lit "r")]
  /\ ~ terminates_within [(lit "added", added_blank)] (always "r")
                         (lit "\ad\addedded{x}") tt 1
  /\ length (occurrences [(lit "added", added_blank)] (lit "\added{x}"))
     = 1%nat
  /\ ~ terminates_within [(lit "added", added_blank)] (always "k")
                         (lit "\added{x}") tt 1.
Proof.
  split; [reflexivity|]. split; [intros args; split; reflexivity|].
  assert (Hrun : process [(lit "added", added_blank)] (always "r") 3
                         (lit "\ad\addedded{x}") tt
                 = Finished [] tt [Warning (lit "added") 3;
                                   Decision added_blank [lit "x"] (lit "r")])
    by reflexivity.
  split; [exact Hrun|]. split.
  - intros (fuel & out & hf & trace & Hr & Hn).
    destruct (process_deterministic _ _ _ _ _ _ _ _ _ _ _ _ _ Hr Hrun)
      as (_ & _ & ->).
    simpl in Hn. lia.
  - split; [reflexivity|].
    intros (fuel & out & hf & trace & Hr & _).
    rewrite (keep_never_returns [(lit "added", added_blank)] unit (always "k")
               (lit "\added{x}") [] (lit "\added") (lit "{x}") (lit "added")
               added_blank [lit "x"] []) in Hr.
    + discriminate.
    + split; reflexivity.
    + reflexivity.
    + split; [reflexivity|]. split; [reflexivity|].
      repeat constructor; discriminate.
    + reflexivity.
Qed.

(** ** Instances of the properties of one turn *)

Lemma decision_replacement_and_splice_witness :
  exists replacement,
    process_step [(lit "added", added)] (always "k")
                 (lit "Hello \added{new text} world.") tt
    = Continue (lit "Hello " ++ replacement ++ lit " world.") tt
               (Decision added [lit "new text"] (lit "k"))
    /\ lit "Hello "
       = py_slice_to (lit "Hello \added{new text} world.") (len (lit "Hello "))
    /\ lit " world."
       = py_slice_from (lit "Hello \added{new text} world.")
                       (len (lit "Hello ") + len (lit "\added")
                        + len (groups [lit "new text"]))
    /\ (lit "k" = lit "a" -> replacement = accept added [lit "new text"])
    /\ (lit "k" = lit "r" -> replacement = reject added [lit "new text"])
    /\ (lit "k" = lit "k" ->
        replacement = lit "\added" ++ groups [lit "new text"]
        /\ replacement
           = py_slice (lit "Hello \added{new text} world.")
                      (len (lit "Hello "))
                      (len (lit "Hello ") + len (lit "\added")
                       + len (groups [lit "new text"]))).
Proof.
  apply (decision_replacement_and_splice
           [(lit "added", added)] unit (always "k")
           (lit "Hello \added{new text} world.") tt
           (lit "Hello ") (lit "\added") (lit "{new text} world.")
           (lit "added") added [lit "new text"] (lit " world.") (lit "k") tt).
  - split; reflexivity.
  - reflexivity.
  - split; [reflexivity|]. split; [reflexivity|].
    repeat constructor; discriminate.
  - reflexivity.
Defined.

Lemma unknown_decision_removes_occurrence_witness :
  lit "Hello \added{new text} world."
  = lit "Hello " ++ (lit "\added" ++ groups [lit "new text"]) ++ lit " world."
  /\ process_step [(lit "added", added)] (always "z")
                  (lit "Hello \added{new text} world.") tt
     = Continue (lit "Hello " ++ lit " world.") tt
                (Decision added [lit "new text"] (lit "z")).
Proof.
  apply (unknown_decision_removes_occurrence
           [(lit "added", added)] unit (always "z")
           (lit "Hello \added{new text} world.") tt
           (lit "Hello ") (lit "\added") (lit "{new text} world.")
           (lit "added") added [lit "new text"] (lit " world.") (lit "z") tt).
  - split; reflexivity.
  - reflexivity.
  - split; [reflexivity|]. split; [reflexivity|].
    repeat constructor; discriminate.
  - reflexivity.
  - discriminate.
  - discriminate.
  - discriminate.
Defined.

Lemma keep_splice_is_identity_witness :
  replacement_for (lit "Hello \added{new text} world.")
    {| m_start := len (lit "Hello ");
       m_end := len (lit "Hello ") + len (lit "\added");
       m_group1 := lit "added" |}
    added [lit "new text"]
    (len (lit "Hello ") + len (lit "\added") + len (groups [lit "new text"]))
    (lit "k")
  = py_slice (lit "Hello \added{new text} world.") (len (lit "Hello "))
             (len (lit "Hello ") + len (lit "\added")
              + len (groups [lit "new text"]))
  /\ py_slice (lit "Hello \added{new text} world.") (len (lit "Hello "))
              (len (lit "Hello ") + len (lit "\added")
               + len (groups [lit "new text"]))
     = lit "\added" ++ groups [lit "new text"]
  /\ process_step [(lit "added", added)] (always "k")
                  (lit "Hello \added{new text} world.") tt
     = Continue (lit "Hello \added{new text} world.") tt
                (Decision added [lit "new text"] (lit "k")).
Proof.
  apply (keep_splice_is_identity
           [(lit "added", added)] unit (always "k")
           (lit "Hello \added{new text} world.") tt
           (lit "Hello ") (lit "\added") (lit "{new text} world.")
           (lit "added") added [lit "new text"] (lit " world.") tt).
  - split; reflexivity.
  - reflexivity.
  - split; [reflexivity|]. split; [reflexivity|].
    repeat constructor; discriminate.
  - reflexivity.
Defined.

(** * Further properties of the source *)

(** ** The pattern of [__init__] and its search *)








Lemma opt_groups_in_bracket : forall body rest committed cur,
  ~ In rbracket body -> ~ In newline body ->
  opt_groups (body ++ rbracket :: rest) InBracket committed cur
  = opt_groups rest SkipSpace (S (cur + length body)) (S (cur + length body)).
Proof.
  induction body as [|c body IH]; intros rest committed cur Hr Hn.
  - simpl. now rewrite Nat.add_0_r.
  - cbn [app opt_groups].
    destruct (Ascii.eqb_spec c rbracket) as [->|_]; [elim Hr; now left|].
    destruct (Ascii.eqb_spec c newline) as [->|_]; [elim Hn; now left|].
    rewrite IH
      by (intros Hin; first [apply Hr; now right | apply Hn; now right]).
    simpl length. now rewrite Nat.add_succ_r.
Qed.

Lemma opt_groups_spaces : forall ws l committed cur,
  Forall (fun c => is_space c = true) ws ->
  opt_groups (ws ++ l) SkipSpace committed cur
  = opt_groups l SkipSpace committed (cur + length ws).
Proof.
  induction ws as [|c ws IH]; intros l committed cur Hws.
  - simpl. now rewrite Nat.add_0_r.
  - inversion Hws as [|? ? Hc Hws']; subst.
    cbn [app opt_groups]. rewrite Hc, IH by assumption.
    simpl length. now rewrite Nat.add_succ_r.
Qed.

(** X3. What [(\s*\[.*?\])*] takes after the command name.  A bracket group,
    with any whitespace before it, is taken up to its first closing bracket
    when no newline comes earlier, and the pattern goes on behind it.  A
    bracket group with a newline before its closing bracket is not taken, and
    neither is whitespace that no bracket follows: the match then ends where
    the last complete group ended. *)
Theorem optional_groups_are_skipped (ws body rest : str) (committed cur : nat) :
  Forall (fun c => is_space c = true) ws ->
  ~ In rbracket body ->
  (~ In newline body ->
   opt_groups (ws ++ lbracket :: body ++ rbracket :: rest)
              SkipSpace committed cur
   = opt_groups rest SkipSpace
                (cur + length ws + length body + 2)
                (cur + length ws + length body + 2))
  /\ opt_groups (ws ++ lbracket :: body ++ newline :: rest)
                SkipSpace committed cur
     = committed
  /\ (forall c, is_space c = false -> c <> lbracket ->
                opt_groups (ws ++ c :: rest) SkipSpace committed cur
                = committed)
  /\ opt_groups ws SkipSpace committed cur = committed.
Proof.
  intros Hws Hr. repeat split.
  - intros Hn. rewrite opt_groups_spaces by assumption.
    cbn [opt_groups]. change (is_space lbracket) with false.
    rewrite Ascii.eqb_refl, opt_groups_in_bracket by assumption.
    f_equal; lia.
  - rewrite opt_groups_spaces by assumption.
    cbn [opt_groups]. change (is_space lbracket) with false.
    rewrite Ascii.eqb_refl.
    generalize (S (cur + length ws)). clear Hws.
    induction body as [|c body IH]; intros n.
    + reflexivity.
    + cbn [app opt_groups].
      destruct (Ascii.eqb_spec c rbracket) as [->|_]; [elim Hr; now left|].
      destruct (Ascii.eqb c newline); [reflexivity|].
      apply IH. intros Hin. apply Hr. now right.
  - intros c Hc Hb. rewrite opt_groups_spaces by assumption.
    cbn [opt_groups]. rewrite Hc.
    destruct (Ascii.eqb_spec c lbracket); [contradiction|reflexivity].
  - rewrite <- (app_nil_r ws), opt_groups_spaces by assumption. reflexivity.
Qed.

Lemma optional_groups_are_skipped_witness :
  opt_groups (lit "  " ++ lbracket :: lit "id=1" ++ rbracket :: lit "{x}")
             SkipSpace 0 0
  = opt_groups (lit "{x}") SkipSpace
               (0 + length (lit "  ") + length (lit "id=1") + 2)
               (0 + length (lit "  ") + length (lit "id=1") + 2).
Proof.
  apply (proj1 (optional_groups_are_skipped
                  (lit "  ") (lit "id=1") (lit "{x}") 0 0
                  ltac:(repeat constructor)
                  ltac:(simpl; intros [E|[E|[E|[E|[]]]]]; discriminate))).
  simpl. intros [E|[E|[E|[E|[]]]]]; discriminate.
Defined.

(** ** The brace matcher, further *)

Lemma py_index_in_range text i :
  - len text <= i < len text -> exists c, py_index text i = Ret c.
Proof.
  intros Hi. unfold py_index.
  set (j := if i <? 0 then i + len text else i).
  assert (Hj : 0 <= j < len text)
    by (unfold j; destruct (Z.ltb_spec i 0); lia).
  destruct (Z.ltb_spec j 0); [lia|].
  destruct (Z.leb_spec (len text) j); [lia|]. simpl.
  destruct (nth_error text (Z.to_nat j)) as [c|] eqn:E; [eauto|].
  apply nth_error_None in E. unfold len in Hj. lia.
Qed.

Lemma brace_loop_returns text match_start : forall indices b,
  (forall i, In i indices -> - len text <= i < len text) ->
  exists r, brace_loop text match_start indices b = Ret r.
Proof.
  induction indices as [|i rest IH]; intros b Hin; simpl; [eauto|].
  destruct (py_index_in_range text i (Hin i (or_introl eq_refl))) as (c & ->).
  destruct (bump c b =? 0); [eauto|].
  apply IH. intros j Hj. apply Hin. now right.
Qed.

(** X4. The matcher raises only below the text: it raises [IndexError], and
    nothing else, exactly when the position is less than [-len(text)]. *)
Theorem find_balanced_braces_raises (text : str) (pos : Z) (e : exn) :
  _find_balanced_braces text pos = Raise e
  <-> e = IndexError /\ pos < - len text.
Proof.
  pose proof (len_nonneg text) as Hl. unfold _find_balanced_braces.
  destruct (Z.leb_spec (len text) pos) as [Hge|Hlt].
  - split; [discriminate|]. intros [_ H]. lia.
  - destruct (Z.lt_ge_cases pos (- len text)) as [Hlow|Hin].
    + unfold py_index.
      destruct (Z.ltb_spec pos 0); [|lia].
      destruct (Z.ltb_spec (pos + len text) 0); [|lia]. simpl.
      split; [intros [= <-]; auto|]. intros [-> _]. reflexivity.
    + destruct (py_index_in_range text pos ltac:(lia)) as (c & ->).
      split; [|intros [_ H]; lia].
      destruct (negb (Ascii.eqb c lbrace)); [discriminate|].
      destruct (brace_loop_returns text (pos + 1) (range pos (len text)) 0)
        as (r & ->); [|discriminate].
      intros i Hi. apply range_In in Hi. lia.
Qed.

Lemma close_offset_map (f : ascii -> ascii) :
  (forall c b, bump (f c) b = bump c b) ->
  forall l b, close_offset (map f l) b = close_offset l b.
Proof.
  intros Hf. induction l as [|c r IH]; intros b; simpl; [reflexivity|].
  rewrite Hf. destruct (bump c b =? 0); [reflexivity|]. now rewrite IH.
Qed.

(** X5. The matcher looks at braces and at nothing else: rewriting the
    other characters of the text, whatever they are, moves no group.  The
    same end position is found and the content is the rewritten content; so
    a backslash in front of a brace, or a percent sign, means nothing to
    it. *)
Theorem find_balanced_braces_reads_only_braces
        (f : ascii -> ascii) (text : str) (pos : Z) :
  (forall c, (f c = lbrace <-> c = lbrace) /\ (f c = rbrace <-> c = rbrace)) ->
  0 <= pos ->
  _find_balanced_braces (map f text) pos
  = map_found f (_find_balanced_braces text pos).
Proof.
  intros Hf Hpos.
  assert (Hbump : forall c b, bump (f c) b = bump c b).
  { intros c b. unfold bump. destruct (Hf c) as [Hl Hr].
    destruct (Ascii.eqb_spec c lbrace) as [E|E];
      destruct (Ascii.eqb_spec (f c) lbrace) as [E'|E']; try tauto.
    destruct (Ascii.eqb_spec c rbrace) as [F|F];
      destruct (Ascii.eqb_spec (f c) rbrace) as [F'|F']; tauto. }
  assert (Hlen : forall l, len (map f l) = len l)
    by (intros l; unfold len; now rewrite length_map).
  destruct (Z.le_gt_cases (len text) pos) as [Hout|Hin].
  - rewrite !find_balanced_braces_past by (rewrite ?Hlen; lia). reflexivity.
  - destruct (text_at text pos Hpos) as (pre & l & -> & Hpre & _).
    rewrite Z.min_l in Hpre by lia. subst pos.
    rewrite map_app, <- (Hlen pre), find_balanced_braces_at.
    rewrite Hlen, find_balanced_braces_at.
    destruct l as [|c r]; [reflexivity|]. cbn [map].
    assert (Hc : Ascii.eqb (f c) lbrace = Ascii.eqb c lbrace).
    { destruct (Hf c) as [Hl _].
      destruct (Ascii.eqb_spec c lbrace);
        destruct (Ascii.eqb_spec (f c) lbrace); tauto. }
    rewrite Hc. destruct (Ascii.eqb c lbrace); [|reflexivity].
    rewrite close_offset_map by assumption.
    destruct (close_offset r 1) as [k|]; [|reflexivity].
    simpl. now rewrite firstn_map.
Qed.

Lemma find_balanced_braces_reads_only_braces_witness :
  _find_balanced_braces
    (map (fun c => if Ascii.eqb c backslash then "x"%char else c)
         (lit "{a\}b}")) 0
  = map_found (fun c => if Ascii.eqb c backslash then "x"%char else c)
              (_find_balanced_braces (lit "{a\}b}") 0).
Proof.
  apply (find_balanced_braces_reads_only_braces
           (fun c => if Ascii.eqb c backslash then "x"%char else c)
           (lit "{a\}b}") 0).
  - intros c. destruct (Ascii.eqb_spec c backslash) as [->|Hc].
    + split; split; discriminate.
    + tauto.
  - lia.
Defined.

(** X6. A group that the matcher finds in a text is found, unchanged, when
    the text stands inside a longer one: the result does not depend on what
    comes before the position or after the closing brace. *)
Theorem find_balanced_braces_is_local
        (pre l extra content : str) (end_pos : Z) :
  _find_balanced_braces l 0 = Ret (Some content, end_pos) ->
  _find_balanced_braces (pre ++ l ++ extra) (len pre)
  = Ret (Some content, len pre + end_pos).
Proof.
  intros Hf.
  destruct (find_balanced_braces_at_inv [] l content end_pos Hf)
    as (post & -> & Hbal & ->).
  change (len []) with 0.
  replace (pre ++ (lbrace :: content ++ rbrace :: post) ++ extra)
    with (pre ++ lbrace :: content ++ rbrace :: (post ++ extra))
    by (simpl; now rewrite <- app_assoc).
  rewrite find_balanced_braces_group by assumption.
  f_equal. f_equal. lia.
Qed.

Lemma find_balanced_braces_is_local_witness :
  _find_balanced_braces (lit "ab" ++ lit "{c{d}}e" ++ lit "}}") (len (lit "ab"))
  = Ret (Some (lit "c{d}"), len (lit "ab") + 6).
Proof.
  apply (find_balanced_braces_is_local
           (lit "ab") (lit "{c{d}}e") (lit "}}") (lit "c{d}") 6).
  reflexivity.
Defined.

(** ** The turn and the loop, further *)

Lemma collect_args_stops : forall args pre tail acc k,
  Forall balanced args ->
  (tail = [] \/ exists c rest, tail = c :: rest /\ c <> lbrace) ->
  collect_args (pre ++ groups args ++ tail) (length args + S k) acc (len pre)
  = Ret (acc ++ args, -1).
Proof.
  induction args as [|a args IH]; intros pre tail acc k Hb Ht.
  - cbn [length groups concat map app Nat.add collect_args].
    rewrite find_balanced_braces_at, app_nil_r.
    destruct Ht as [->|(c & rest & -> & Hc)]; [reflexivity|].
    destruct (Ascii.eqb_spec c lbrace); [contradiction|reflexivity].
  - inversion Hb as [|? ? Ha Hb']; subst.
    cbn [length Nat.add collect_args]. rewrite groups_cons.
    replace (pre ++ (braced a ++ groups args) ++ tail)
      with (pre ++ lbrace :: a ++ rbrace :: (groups args ++ tail))
      by (rewrite <- (app_braced pre a), <- !app_assoc; reflexivity).
    rewrite find_balanced_braces_group by assumption.
    rewrite <- app_braced.
    replace (len pre + len a + 2) with (len (pre ++ braced a))
      by (rewrite len_app, len_braced; lia).
    rewrite IH by assumption. now rewrite <- app_assoc.
Qed.

(** X7. The arguments have to follow the match and one another directly.
    When fewer groups than the command expects stand there, and the text
    ends or goes on with anything but an opening brace (a space, say), the
    occurrence is malformed: the turn deletes the matched text alone, so the
    groups that were read stay in the buffer, and the decision source is not
    asked. *)
Theorem arguments_must_be_adjacent
        (COMMAND_MAP : list (str * Command)) (H : Type)
        (get_decision_for_change : H -> Command -> list str -> str * H)
        text h before matched command_name command args tail :
  first_match COMMAND_MAP text before matched (groups args ++ tail)
              command_name ->
  lookup COMMAND_MAP command_name = Ret command ->
  Forall balanced args ->
  (length args < num_args command)%nat ->
  (tail = [] \/ exists c rest, tail = c :: rest /\ c <> lbrace) ->
  malformed (num_args command) (groups args ++ tail)
  /\ process_step COMMAND_MAP get_decision_for_change text h
     = Continue (before ++ groups args ++ tail) h
                (Warning command_name (len before)).
Proof.
  intros Hm Hl Hb Hn Ht.
  assert (Hmal : malformed (num_args command) (groups args ++ tail)).
  { apply (malformed_by_collect _ _ ([] ++ args)).
    replace (num_args command)
      with (length args + S (num_args command - length args - 1))%nat by lia.
    exact (collect_args_stops args [] tail [] _ Hb Ht). }
  split; [exact Hmal|].
  exact (process_step_malformed COMMAND_MAP H get_decision_for_change
           text h _ _ _ _ _ Hm Hl Hmal).
Qed.

Lemma arguments_must_be_adjacent_witness :
  malformed (num_args added) (groups [] ++ lit " {x}")
  /\ process_step [(lit "added", added)] (always "a") (lit "a\added {x}") tt
     = Continue (lit "a" ++ groups [] ++ lit " {x}") tt
                (Warning (lit "added") (len (lit "a"))).
Proof.
  apply (arguments_must_be_adjacent
           [(lit "added", added)] unit (always "a") (lit "a\added {x}") tt
           (lit "a") (lit "\added") (lit "added") added [] (lit " {x}")).
  - split; reflexivity.
  - reflexivity.
  - constructor.
  - simpl. lia.
  - right. exists " "%char, (lit "{x}"). split; [reflexivity|discriminate].
Defined.

Lemma process_step_no_fail (COMMAND_MAP : list (str * Command)) (H : Type)
      (get_decision_for_change : H -> Command -> list str -> str * H)
      text h e :
  COMMAND_MAP <> [] ->
  process_step COMMAND_MAP get_decision_for_change text h <> Fail e.
Proof.
  intros Hne. unfold process_step.
  destruct (command_regex_search COMMAND_MAP text) as [m|] eqn:Hs;
    [|discriminate].
  destruct (search_inv _ _ _ Hs)
    as (before & matched & rest & -> & H1 & H2 & _ & Hin).
  assert (Hkeys : alternatives (map fst COMMAND_MAP) = map fst COMMAND_MAP)
    by (destruct COMMAND_MAP; [contradiction|reflexivity]).
  rewrite Hkeys in Hin.
  destruct (lookup_keys _ _ Hin) as (command & -> & _).
  rewrite H2, <- len_app, app_assoc.
  destruct (collect_args_total (num_args command) (before ++ matched) rest [])
    as (args & q & ->).
  destruct (q =? -1); [discriminate|].
  destruct (get_decision_for_change h command args). discriminate.
Qed.

(** X8. With a registry that is not empty and whose keys are plain words,
    [process] raises nothing of its own: no [KeyError] from the registry
    look-up and no [IndexError] from the matcher, on any text and with any
    decision source. *)
Theorem process_never_raises
        (COMMAND_MAP : list (str * Command)) (H : Type)
        (get_decision_for_change : H -> Command -> list str -> str * H) :
  COMMAND_MAP <> [] ->
  plain_keys COMMAND_MAP = true ->
  forall fuel text h e trace,
    process COMMAND_MAP get_decision_for_change fuel text h <> Raised e trace.
Proof.
  intros Hne _. induction fuel as [|fuel IH]; intros text h e trace.
  - discriminate.
  - rewrite process_unfold.
    pose proof (process_step_no_fail COMMAND_MAP H get_decision_for_change
                  text h) as Hnf.
    destruct (process_step COMMAND_MAP get_decision_for_change text h)
      as [|text' h' ev|e']; [discriminate| |now elim (Hnf e')].
    pose proof (IH text' h') as Hrec.
    destruct (process COMMAND_MAP get_decision_for_change fuel text' h')
      as [| e1 t1 |]; try discriminate.
    now elim (Hrec e1 t1).
Qed.

Lemma process_never_raises_witness :
  process [(lit "added", added)] (always "a") 2 (lit "a\added{b") tt
  <> Raised KeyError [].
Proof.
  apply (process_never_raises [(lit "added", added)] unit (always "a")).
  - discriminate.
  - reflexivity.
Defined.

Lemma search_from_empty_keys : forall l pos,
  In backslash l ->
  exists m, search_from [] l pos = Some m /\ m_group1 m = [].
Proof.
  induction l as [|c r IH]; intros pos Hin; [destruct Hin|].
  cbn [search_from]. unfold match_here.
  destruct (Ascii.eqb_spec c backslash) as [->|Hc].
  - simpl. eauto.
  - destruct Hin as [E|Hin]; [congruence|]. now apply IH.
Qed.

(** X9. With an empty registry the pattern matches every backslash with an
    empty name, and the look-up of that name fails: [process] raises
    [KeyError] on every text that contains a backslash, before it rewrites
    anything or asks for a decision. *)
Theorem empty_registry_raises_key_error
        (H : Type)
        (get_decision_for_change : H -> Command -> list str -> str * H)
        (fuel : nat) (text : str) (h : H) :
  In backslash text ->
  process [] get_decision_for_change (S fuel) text h = Raised KeyError [].
Proof.
  intros Hin. rewrite process_unfold.
  unfold process_step, command_regex_search, search. simpl map.
  destruct (search_from_empty_keys text 0 Hin) as (m & -> & ->).
  reflexivity.
Qed.

Lemma empty_registry_raises_key_error_witness :
  process [] (always "a") 1 (lit "a\b") tt = Raised KeyError [].
Proof.
  apply (empty_registry_raises_key_error unit (always "a") 0 (lit "a\b") tt).
  simpl. auto.
Defined.

(** X10. What [process] returns is a fixed point of [process]: it has no
    occurrence of a recognized command left, and processing it again, with
    any decision source, returns it as it is without a call of the decision
    source and without a warning. *)
Theorem process_output_is_fixed_point
        (COMMAND_MAP : list (str * Command)) (H : Type)
        (get_decision_for_change : H -> Command -> list str -> str * H)
        fuel text h out hf trace :
  process COMMAND_MAP get_decision_for_change fuel text h
  = Finished out hf trace ->
  occurrences COMMAND_MAP out = []
  /\ forall (H' : Type)
            (another_source : H' -> Command -> list str -> str * H')
            (fuel' : nat) (h' : H'),
       process COMMAND_MAP another_source (S fuel') out h'
       = Finished out h' [].
Proof.
  intros Hr.
  pose proof (process_result_clean _ _ _ _ _ _ _ _ _ Hr) as Hclean.
  split; [exact Hclean|].
  intros H' src fuel' h'. rewrite process_unfold.
  unfold occurrences in Hclean. apply search_none_occurrences in Hclean.
  unfold process_step, command_regex_search, search. now rewrite Hclean.
Qed.

Lemma process_output_is_fixed_point_witness :
  occurrences [(lit "added", added)] (lit "a{b}") = []
  /\ process [(lit "added", added)] (always "k") 1 (lit "a{b}") tt
     = Finished (lit "a{b}") tt [].
Proof.
  destruct (process_output_is_fixed_point
              [(lit "added", added)] unit (always "a") 3
              (lit "a\added{{b}}") tt (lit "a{b}") tt
              [Decision added [lit "{b}"] (lit "a")] eq_refl) as [Hc Hf].
  split; [exact Hc|]. exact (Hf unit (always "k") O tt).
Defined.

Lemma search_from_offset keys : forall l pos k,
  search_from keys l (pos + k)
  = option_map (fun m => {| m_start := m_start m + Z.of_nat k;
                            m_end := m_end m + Z.of_nat k;
                            m_group1 := m_group1 m |})
               (search_from keys l pos).
Proof.
  induction l as [|c r IH]; intros pos k; cbn [search_from].
  - destruct (match_here keys []) as [[nm n]|]; [|reflexivity].
    cbn [option_map m_start m_end m_group1]. do 2 f_equal; lia.
  - destruct (match_here keys (c :: r)) as [[nm n]|].
    + cbn [option_map m_start m_end m_group1]. do 2 f_equal; lia.
    + exact (IH (S pos) k).
Qed.

Lemma search_from_skip keys : forall before t pos,
  ~ In backslash before ->
  search_from keys (before ++ t) pos
  = search_from keys t (pos + length before).
Proof.
  induction before as [|c before IH]; intros t pos Hb.
  - simpl. now rewrite Nat.add_0_r.
  - cbn [app search_from]. unfold match_here at 1.
    destruct (Ascii.eqb_spec c backslash) as [->|_]; [elim Hb; now left|].
    rewrite IH by (intros Hin; apply Hb; now right).
    simpl length. now rewrite Nat.add_succ_r.
Qed.

Lemma process_step_after_plain_text
      (COMMAND_MAP : list (str * Command)) (H : Type)
      (get_decision_for_change : H -> Command -> list str -> str * H)
      before t h :
  ~ In backslash before ->
  process_step COMMAND_MAP get_decision_for_change (before ++ t) h
  = match process_step COMMAND_MAP get_decision_for_change t h with
    | Break => Break
    | Fail e => Fail e
    | Continue t' h' ev =>
        Continue (before ++ t') h' (shift_event (len before) ev)
    end.
Proof.
  intros Hb.
  assert (Hshift : search (map fst COMMAND_MAP) (before ++ t)
                   = option_map
                       (fun m => {| m_start := m_start m + len before;
                                    m_end := m_end m + len before;
                                    m_group1 := m_group1 m |})
                       (search (map fst COMMAND_MAP) t)).
  { unfold search. rewrite search_from_skip by assumption.
    apply (search_from_offset _ t 0 (length before)). }
  destruct (command_regex_search COMMAND_MAP t) as [m|] eqn:Hs.
  - destruct (first_match_exists _ _ _ Hs)
      as (b2 & matched & rest & Hm & _ & _).
    pose proof Hm as [Ht Hsearch].
    assert (Hm' : first_match COMMAND_MAP (before ++ t) (before ++ b2)
                              matched rest (m_group1 m)).
    { split; [rewrite Ht, <- app_assoc; reflexivity|].
      rewrite Hshift, Hsearch. cbn [option_map m_start m_end m_group1].
      rewrite len_app. do 2 f_equal; lia. }
    destruct (lookup COMMAND_MAP (m_group1 m)) as [command|e] eqn:Hl.
    + destruct (well_formed_or_malformed (num_args command) rest)
        as [(args & after & Hw)|Hmal].
      * destruct (get_decision_for_change h command args)
          as [action h'] eqn:Hd.
        rewrite (process_step_well_formed _ _ _ _ _ _ _ _ _ _ _ _ _ _
                   Hm' Hl Hw Hd).
        rewrite (process_step_well_formed _ _ _ _ _ _ _ _ _ _ _ _ _ _
                   Hm Hl Hw Hd).
        cbn [shift_event]. now rewrite <- app_assoc.
      * rewrite (process_step_malformed _ _ _ _ _ _ _ _ _ _ Hm' Hl Hmal).
        rewrite (process_step_malformed _ _ _ _ _ _ _ _ _ _ Hm Hl Hmal).
        cbn [shift_event]. rewrite <- app_assoc, len_app.
        do 2 f_equal. lia.
    + unfold process_step, command_regex_search in *.
      rewrite Hshift, Hs. cbn [option_map m_group1]. now rewrite Hl.
  - unfold process_step, command_regex_search in *.
    rewrite Hshift, Hs. reflexivity.
Qed.

(** X11. Text in front of the first backslash is left alone and has no
    say: when [before] holds no backslash, processing [before ++ text] does
    what processing [text] does, turn by turn, with the same calls of the
    decision source; the output carries [before] in front and the positions
    in the warnings are larger by its length. *)
Theorem text_before_first_backslash_is_kept
        (COMMAND_MAP : list (str * Command)) (H : Type)
        (get_decision_for_change : H -> Command -> list str -> str * H)
        (before : str) :
  ~ In backslash before ->
  forall fuel text h,
    process COMMAND_MAP get_decision_for_change fuel (before ++ text) h
    = prepend_outcome before
        (process COMMAND_MAP get_decision_for_change fuel text h).
Proof.
  intros Hb. induction fuel as [|fuel IH]; intros text h; [reflexivity|].
  rewrite !process_unfold, process_step_after_plain_text by assumption.
  destruct (process_step COMMAND_MAP get_decision_for_change text h)
    as [|text' h' ev|e].
  - reflexivity.
  - rewrite IH.
    destruct (process COMMAND_MAP get_decision_for_change fuel text' h');
      reflexivity.
  - reflexivity.
Qed.

Lemma text_before_first_backslash_is_kept_witness :
  process [(lit "added", added)] (always "a") 3
          (lit "{[ " ++ lit "\added\added{x} y") tt
  = prepend_outcome (lit "{[ ")
      (process [(lit "added", added)] (always "a") 3
               (lit "\added\added{x} y") tt).
Proof.
  apply (text_before_first_backslash_is_kept
           [(lit "added", added)] unit (always "a") (lit "{[ ")).
  simpl. intros [E|[E|[E|[]]]]; discriminate.
Defined.

Lemma length_concat_groups : forall args : list str,
  (length (concat args) <= length (groups args))%nat.
Proof.
  induction args as [|a args IH]; [simpl; lia|].
  rewrite groups_cons. cbn [concat]. rewrite !length_app.
  unfold braced. simpl length. rewrite length_app. simpl length. lia.
Qed.

Section Shrinking.

Variable COMMAND_MAP : list (str * Command).
Variable H : Type.
Variable get_decision_for_change : H -> Command -> list str -> str * H.

Hypothesis registry_not_empty : COMMAND_MAP <> [].
Hypothesis never_keep :
  forall h command args,
    fst (get_decision_for_change h command args) <> lit "k".
Hypothesis transforms_do_not_grow :
  forall key command args,
    In (key, command) COMMAND_MAP ->
    length args = num_args command ->
    (length (accept command args) <= length (concat args)
     /\ length (reject command args) <= length (concat args))%nat.

(** Each turn that rewrites the buffer makes it shorter. *)
Lemma step_shrinks text h :
  process_step COMMAND_MAP get_decision_for_change text h = Break
  \/ exists text' h' ev,
       process_step COMMAND_MAP get_decision_for_change text h
       = Continue text' h' ev
       /\ (length text' < length text)%nat.
Proof.
  destruct (command_regex_search COMMAND_MAP text) as [m|] eqn:Hs.
  - right.
    destruct (first_match_exists _ _ _ Hs)
      as (before & matched & rest & Hm & (tl & ->) & Hin).
    assert (Hkeys : alternatives (map fst COMMAND_MAP) = map fst COMMAND_MAP)
      by (destruct COMMAND_MAP; [contradiction|reflexivity]).
    rewrite Hkeys in Hin.
    destruct (lookup_keys _ _ Hin) as (command & Hl & Hc).
    pose proof Hm as [Htext _].
    destruct (well_formed_or_malformed (num_args command) rest)
      as [(args & after & Hw)|Hmal].
    + destruct (get_decision_for_change h command args) as [action h'] eqn:Hd.
      rewrite (process_step_well_formed COMMAND_MAP H get_decision_for_change
                 _ _ _ _ _ _ _ _ _ _ _ Hm Hl Hw Hd).
      do 3 eexists. split; [reflexivity|].
      destruct Hw as (-> & Hn & _). rewrite Htext.
      destruct (transforms_do_not_grow _ _ args Hc Hn) as [Ea Er].
      pose proof (length_concat_groups args) as Hg.
      pose proof (never_keep h command args) as Hk. rewrite Hd in Hk.
      cbn [fst] in Hk.
      rewrite !length_app. cbn [length].
      destruct (str_eqb action (lit "a")); [lia|].
      destruct (str_eqb action (lit "r")); [lia|].
      destruct (str_eqb action (lit "k")) eqn:Ek;
        [apply str_eqb_eq in Ek; contradiction|].
      cbn [length]. lia.
    + rewrite (process_step_malformed COMMAND_MAP H get_decision_for_change
                 text h _ _ _ _ _ Hm Hl Hmal).
      do 3 eexists. split; [reflexivity|].
      rewrite Htext, !length_app. cbn [length]. lia.
  - left. unfold process_step. now rewrite Hs.
Qed.

Lemma process_bounded_by_length : forall fuel text h,
  (length text < fuel)%nat ->
  exists out hf trace,
    process COMMAND_MAP get_decision_for_change fuel text h
    = Finished out hf trace
    /\ (length trace + length out <= length text)%nat.
Proof.
  induction fuel as [|fuel IH]; intros text h Hlt; [lia|].
  rewrite process_unfold.
  destruct (step_shrinks text h) as [Hs|(text' & h' & ev & Hs & Hdec)];
    rewrite Hs.
  - exists text, h, []. split; [reflexivity|simpl; lia].
  - destruct (IH text' h' ltac:(lia)) as (out & hf & trace & Hr & Hn).
    rewrite Hr.
    exists out, hf, (ev :: trace). split; [reflexivity|simpl; lia].
Qed.

End Shrinking.

(** X12. Nested annotations are no obstacle to termination.  When the
    registry is not empty and its keys are plain words, the decision source
    never answers keep, and no
    transform returns more characters than its arguments hold together,
    every rewriting turn shortens the buffer; [process] then returns after
    at most [len(text)] rewriting turns, with no occurrence left, even when
    the arguments contain commands themselves.  The output is shorter than
    the input by at least one character for each rewriting turn. *)
Theorem process_terminates_when_transforms_do_not_grow
        (COMMAND_MAP : list (str * Command)) (H : Type)
        (get_decision_for_change : H -> Command -> list str -> str * H)
        text h :
  COMMAND_MAP <> [] ->
  plain_keys COMMAND_MAP = true ->
  (forall h command args,
      fst (get_decision_for_change h command args) <> lit "k") ->
  (forall key command args,
      In (key, command) COMMAND_MAP ->
      length args = num_args command ->
      (length (accept command args) <= length (concat args)
       /\ length (reject command args) <= length (concat args))%nat) ->
  exists out hf trace,
    process COMMAND_MAP get_decision_for_change (S (length text)) text h
    = Finished out hf trace
    /\ (length trace <= length text)%nat
    /\ (length trace + length out <= length text)%nat
    /\ occurrences COMMAND_MAP out = [].
Proof.
  intros Hne _ Hk Ht.
  destruct (process_bounded_by_length COMMAND_MAP H get_decision_for_change
              Hne Hk Ht (S (length text)) text h (Nat.lt_succ_diag_r _))
    as (out & hf & trace & Hr & Hn).
  exists out, hf, trace. split; [assumption|]. split; [lia|].
  split; [assumption|].
  eapply process_result_clean. exact Hr.
Qed.

Lemma process_terminates_when_transforms_do_not_grow_witness :
  exists out hf trace,
    process [(lit "added", added)] (always "a")
            (S (length (lit "\added{a \added{b}}")))
            (lit "\added{a \added{b}}") tt
    = Finished out hf trace
    /\ (length trace <= length (lit "\added{a \added{b}}"))%nat
    /\ (length trace + length out <= length (lit "\added{a \added{b}}"))%nat
    /\ occurrences [(lit "added", added)] out = [].
Proof.
  apply (process_terminates_when_transforms_do_not_grow
           [(lit "added", added)] unit (always "a")
           (lit "\added{a \added{b}}") tt).
  - discriminate.
  - reflexivity.
  - intros h command args. simpl. discriminate.
  - intros key command args [E|[]] _. injection E as _ <-.
    simpl. split; lia.
Defined.

(** X13. A keep answer leaves the loop where it was.  Whenever the first
    occurrence in the buffer is well formed and the decision source answers
    keep to it each time it is asked, every turn finds that occurrence again
    and asks again: after any number of turns [process] has not returned and
    has called the decision source that many times. *)
Theorem keep_decision_blocks_the_loop
        (COMMAND_MAP : list (str * Command)) (H : Type)
        (get_decision_for_change : H -> Command -> list str -> str * H)
        text before matched rest command_name command args after :
  first_match COMMAND_MAP text before matched rest command_name ->
  lookup COMMAND_MAP command_name = Ret command ->
  well_formed (num_args command) rest args after ->
  (forall h, fst (get_decision_for_change h command args) = lit "k") ->
  forall fuel h,
    process COMMAND_MAP get_decision_for_change fuel text h
    = OutOfFuel (repeat (Decision command args (lit "k")) fuel)
    /\ decisions (repeat (Decision command args (lit "k")) fuel) = fuel.
Proof.
  intros Hm Hl Hw Hk fuel h. split.
  - exact (keep_never_returns COMMAND_MAP H get_decision_for_change
             _ _ _ _ _ _ _ _ Hm Hl Hw Hk fuel h).
  - unfold decisions. clear. induction fuel as [|fuel IH]; [reflexivity|].
    simpl. f_equal. exact IH.
Qed.

Lemma keep_decision_blocks_the_loop_witness :
  process [(lit "added", added)] (always "k") 4 (lit "a \added{x} b") tt
  = OutOfFuel (repeat (Decision added [lit "x"] (lit "k")) 4)
  /\ decisions (repeat (Decision added [lit "x"] (lit "k")) 4) = 4%nat.
Proof.
  apply (keep_decision_blocks_the_loop
           [(lit "added", added)] unit (always "k")
           (lit "a \added{x} b") (lit "a ") (lit "\added") (lit "{x} b")
           (lit "added") added [lit "x"] (lit " b")).
  - split; reflexivity.
  - reflexivity.
  - split; [reflexivity|]. split; [reflexivity|].
    repeat constructor; discriminate.
  - reflexivity.
Defined.

Lemma process_step_event
      (COMMAND_MAP : list (str * Command)) (H : Type)
      (get_decision_for_change : H -> Command -> list str -> str * H)
      text h text' h' ev :
  process_step COMMAND_MAP get_decision_for_change text h
  = Continue text' h' ev ->
  (exists command_name position,
      ev = Warning command_name position /\ h' = h)
  \/ (exists command args action,
         ev = Decision command args action
         /\ get_decision_for_change h command args = (action, h')).
Proof.
  unfold process_step.
  destruct (command_regex_search COMMAND_MAP text) as [m|]; [|discriminate].
  destruct (lookup COMMAND_MAP (m_group1 m)) as [command|]; [|discriminate].
  destruct (collect_args text (num_args command) [] (m_end m))
    as [[args q]|]; [|discriminate].
  destruct (q =? -1).
  - intros [= <- <- <-]. left. eauto.
  - destruct (get_decision_for_change h command args) as [action h1] eqn:Hd.
    intros [= <- <- <-]. right. eauto.
Qed.

(** X14. The trace of a run is the record of the calls of the decision
    source: it is called once for each decision in the trace, in that order,
    with the recorded command and arguments, each call in the state the call
    before left; the recorded answers are its answers and the state that
    [process] ends with is the state after the last call.  Turns that warn
    do not touch it. *)
Theorem trace_records_the_decision_calls
        (COMMAND_MAP : list (str * Command)) (H : Type)
        (get_decision_for_change : H -> Command -> list str -> str * H) :
  forall fuel text h out hf trace,
    process COMMAND_MAP get_decision_for_change fuel text h
    = Finished out hf trace ->
    handler_after get_decision_for_change h trace = hf
    /\ answers_recorded get_decision_for_change h trace.
Proof.
  induction fuel as [|fuel IH]; intros text h out hf trace; [discriminate|].
  rewrite process_unfold.
  destruct (process_step COMMAND_MAP get_decision_for_change text h)
    as [|text' h' ev|e] eqn:Hs; try discriminate.
  - intros [= <- <- <-]. simpl. auto.
  - destruct (process COMMAND_MAP get_decision_for_change fuel text' h')
      as [o1 h1 t1| |] eqn:Hr; try discriminate.
    intros [= <- <- <-].
    destruct (IH _ _ _ _ _ Hr) as [Hh Ha].
    destruct (process_step_event _ _ _ _ _ _ _ _ Hs)
      as [(nm & p & -> & ->)|(c & args & a & -> & Hd)].
    + simpl. auto.
    + simpl. rewrite Hd. simpl. auto.
Qed.

Lemma trace_records_the_decision_calls_witness :
  handler_after keep_then_accept O
                [Decision added [lit "x"] (lit "k");
                 Decision added [lit "x"] (lit "a")] = 2%nat
  /\ answers_recorded keep_then_accept O
                      [Decision added [lit "x"] (lit "k");
                       Decision added [lit "x"] (lit "a")].
Proof.
  apply (trace_records_the_decision_calls
           [(lit "added", added)] nat keep_then_accept
           3 (lit "\added{x}") O (lit "x")).
  reflexivity.
Defined.

(** X15. A command kind without arguments is never malformed and takes no
    brace group: the decision source is asked with an empty argument list,
    and whatever follows the matched text, braces included, stays in the
    buffer behind the replacement. *)
Theorem command_without_arguments
        (COMMAND_MAP : list (str * Command)) (H : Type)
        (get_decision_for_change : H -> Command -> list str -> str * H)
        text h before matched rest command_name command action h' :
  first_match COMMAND_MAP text before matched rest command_name ->
  lookup COMMAND_MAP command_name = Ret command ->
  num_args command = O ->
  get_decision_for_change h command [] = (action, h') ->
  ~ malformed (num_args command) rest
  /\ process_step COMMAND_MAP get_decision_for_change text h
     = Continue (before
                   ++ (if str_eqb action (lit "a") then accept command []
                       else if str_eqb action (lit "r") then reject command []
                       else if str_eqb action (lit "k") then matched
                       else [])
                   ++ rest)
                h' (Decision command [] action).
Proof.
  intros Hm Hl Hn Hd.
  assert (Hw : well_formed (num_args command) rest [] rest)
    by (rewrite Hn; repeat split; constructor).
  split; [intros Hmal; exact (Hmal [] rest Hw)|].
  rewrite (process_step_well_formed COMMAND_MAP H get_decision_for_change
             _ _ _ _ _ _ _ _ _ _ _ Hm Hl Hw Hd).
  change (groups []) with (@nil ascii). now rewrite app_nil_r.
Qed.

Lemma command_without_arguments_witness :
  ~ malformed
      (num_args {| name := lit "sep"; num_args := 0;
                   accept := fun _ => lit "-"; reject := fun _ => [] |})
      (lit "{x}")
  /\ process_step
       [(lit "sep", {| name := lit "sep"; num_args := 0;
                       accept := fun _ => lit "-"; reject := fun _ => [] |})]
       (always "a") (lit "a\sep{x}") tt
     = Continue (lit "a"
                   ++ (if str_eqb (lit "a") (lit "a") then lit "-"
                       else if str_eqb (lit "a") (lit "r") then []
                       else if str_eqb (lit "a") (lit "k") then lit "\sep"
                       else [])
                   ++ lit "{x}")
                tt
                (Decision {| name := lit "sep"; num_args := 0;
                             accept := fun _ => lit "-";
                             reject := fun _ => [] |} [] (lit "a")).
Proof.
  apply (command_without_arguments
           [(lit "sep", {| name := lit "sep"; num_args := 0;
                           accept := fun _ => lit "-";
                           reject := fun _ => [] |})]
           unit (always "a") (lit "a\sep{x}") tt
           (lit "a") (lit "\sep") (lit "{x}") (lit "sep")
           {| name := lit "sep"; num_args := 0;
              accept := fun _ => lit "-"; reject := fun _ => [] |}
           (lit "a") tt).
  - split; reflexivity.
  - reflexivity.
  - reflexivity.
  - reflexivity.
Defined.
